(** * Receipt analyzer: field extraction and record algorithms

    A shallow embedding of [backend/parser.py] ([parse_receipt_text]),
    [backend/algorithms.py] (the searches, [sort_receipts],
    [calculate_aggregates], [time_series_aggregation]), the validation of
    [backend/models.py] and the endpoints of [backend/main.py] that call
    them, with the properties of the specification and further properties of
    the code stated and proved over it.

    Conventions of the embedding.
    - Python [str] values handled by the parser are lists of Unicode code
      points ([list N]); [len] is [length].  The character classes [\d], [\w]
      and case folding are the ASCII ones, [\s] and [str.strip] use Python's
      full white-space table.
    - A Python [float] is an exact rational; the numerals the parser hands to
      [float()] have at most three integer and two fractional digits, and the
      tests made on them ([> 0], [<], [==]) agree with those on rationals.
    - An exception caught by the source is an [option] or an [Err] result at
      the place where it is raised. *)

From Stdlib Require Import QArith Qcanon OrdersEx.
From stdpp Require Import gmap strings list fin_maps sorting pretty.

Local Open Scope N_scope.

(** ** Text and character classes *)

Definition char := N.
Abbreviation text := (list char).

Definition text_of (s : string) : text :=
  Ascii.N_of_ascii <$> String.list_ascii_of_string s.

Definition NL : char := 10.
Definition comma : char := 44.
Definition dot : char := 46.
Definition colon : char := 58.

Definition is_digit (c : char) : bool := (48 <=? c) && (c <=? 57).
Definition is_upper (c : char) : bool := (65 <=? c) && (c <=? 90).
Definition is_lower (c : char) : bool := (97 <=? c) && (c <=? 122).
(** [\w]: letters, digits and the underscore. *)
Definition is_word (c : char) : bool :=
  is_digit c || is_upper c || is_lower c || (c =? 95).
(** [str.isspace], which is also the class [\s] of [re] on [str] patterns. *)
Definition is_space (c : char) : bool :=
  ((9 <=? c) && (c <=? 13)) || ((28 <=? c) && (c <=? 32))
  || (c =? 133) || (c =? 160) || (c =? 5760)
  || ((8192 <=? c) && (c <=? 8202))
  || (c =? 8232) || (c =? 8233) || (c =? 8239) || (c =? 8287) || (c =? 12288).

Definition lower_char (c : char) : char := if is_upper c then c + 32 else c.
(** [str.lower] *)
Definition lower (s : text) : text := lower_char <$> s.

Fixpoint drop_while {A} (p : A -> bool) (l : list A) : list A :=
  match l with
  | [] => []
  | x :: l' => if p x then drop_while p l' else l
  end.

(** [str.strip()] with no argument *)
Definition lstrip (s : text) : text := drop_while is_space s.
Definition strip (s : text) : text := rev (lstrip (rev (lstrip s))).

(** [str.split('\n')]: the pieces between line feeds, empty pieces kept. *)
Fixpoint split_lines (s : text) : list text :=
  match s with
  | [] => [[]]
  | c :: s' =>
      if c =? NL then [] :: split_lines s'
      else match split_lines s' with
           | [] => [[c]]
           | l :: ls => (c :: l) :: ls
           end
  end.

(** [needle in hay] *)
Fixpoint starts_with (p s : text) : bool :=
  match p, s with
  | [], _ => true
  | a :: p', b :: s' => (a =? b) && starts_with p' s'
  | _ :: _, [] => false
  end.
Fixpoint contains (needle hay : text) : bool :=
  starts_with needle hay ||
  match hay with
  | [] => false
  | _ :: hay' => contains needle hay'
  end.

(** A [for] loop left by [break] at the first element that gives a result. *)
Fixpoint first_some {A B} (f : A -> option B) (l : list A) : option B :=
  match l with
  | [] => None
  | x :: l' =>
      match f x with
      | Some y => Some y
      | None => first_some f l'
      end
  end.

(** [str.replace(',', '.')] *)
Definition replace_char (old new : char) (s : text) : text :=
  (fun c => if c =? old then new else c) <$> s.

(** ** A backtracking matcher for the patterns of the parser

    The constructs are those the source uses: literals, classes, the
    anchors [^], [$] and [\b], concatenation, ordered alternation, greedy
    repetition and one capturing group.  [run] lists the cursors at which a
    match started at the given cursor can end, in the order in which the
    backtracking matcher of [re] tries them; the first is the match [re]
    reports. *)

Inductive regex : Type :=
| Chr (c : char)
| Cls (p : char -> bool)
| Bol
| Eol
| WordB
| Seq (a b : regex)
| Alt (a b : regex)
| Rep (a : regex) (lo : nat) (hi : option nat)
| Grp (a : regex).

Record cursor := Cursor {
  seen : text;            (* the text before the position, last first *)
  rest : text;            (* the text from the position on *)
  group1 : option text    (* what group 1 captured so far *)
}.

Definition between (k k' : cursor) : text :=
  rev (take (length (seen k') - length (seen k))%nat (seen k')).

Definition step (ok : char -> bool) (k : cursor) : list cursor :=
  match rest k with
  | c :: r => if ok c then [Cursor (c :: seen k) r (group1 k)] else []
  | [] => []
  end.

Definition at_word_boundary (k : cursor) : bool :=
  xorb (from_option is_word false (head (seen k)))
       (from_option is_word false (head (rest k))).

(** [$] without [re.MULTILINE]: the end of the text, or just before a line
    feed that ends the text. *)
Definition at_end (k : cursor) : bool :=
  match rest k with
  | [] => true
  | [c] => c =? NL
  | _ => false
  end.

Definition guard (b : bool) (k : cursor) : list cursor := if b then [k] else [].

(** Greedy repetition of [f], at least [lo] and at most [hi] times. *)
Fixpoint rep (f : cursor -> list cursor) (lo hi : nat) (k : cursor) : list cursor :=
  match hi with
  | O => guard (bool_decide (lo = O)) k
  | S hi' => (f k ≫= rep f (pred lo) hi') ++ guard (bool_decide (lo = O)) k
  end.

Section Run.
Variable icase : bool.   (* re.IGNORECASE *)

Definition chr_ok (c d : char) : bool :=
  if icase then lower_char c =? lower_char d else c =? d.

(** An unbounded repetition is bounded by what is left of the text: each
    iteration of a repeated sub-pattern of the source takes at least one
    character. *)
Fixpoint run (r : regex) (k : cursor) : list cursor :=
  match r with
  | Chr c => step (chr_ok c) k
  | Cls p => step p k
  | Bol => guard (bool_decide (seen k = [])) k
  | Eol => guard (at_end k) k
  | WordB => guard (at_word_boundary k) k
  | Seq a b => run a k ≫= run b
  | Alt a b => run a k ++ run b k
  | Rep a lo hi => rep (run a) lo (default (lo + length (rest k))%nat hi) k
  | Grp a => (fun k' => Cursor (seen k') (rest k') (Some (between k k'))) <$> run a k
  end.

(** The leftmost match: [re.search] gives its start and end. *)
Fixpoint search_from (r : regex) (sn rs : text) : option (cursor * cursor) :=
  let k := Cursor sn rs None in
  match head (run r k) with
  | Some e => Some (k, e)
  | None =>
      match rs with
      | [] => None
      | c :: rs' => search_from r (c :: sn) rs'
      end
  end.

(** [re.search(r, s)] then [.group(0)] *)
Definition search (r : regex) (s : text) : option text :=
  (fun m => between m.1 m.2) <$> search_from r [] s.

(** [re.findall(r, s)] for a pattern with one group: group 1 of the
    successive matches, each search resuming where the last match ended
    ([skip] counts the characters of the last match still to pass).  The
    patterns of the source match no empty string. *)
Fixpoint findall_from (r : regex) (skip : nat) (sn rs : text) : list text :=
  let next n :=
    match rs with
    | [] => []
    | c :: rs' => findall_from r n (c :: sn) rs'
    end in
  match skip with
  | S n => next n
  | O =>
      let k := Cursor sn rs None in
      match head (run r k) with
      | Some e => default [] (group1 e) :: next (pred (length (between k e)))
      | None => next O
      end
  end.

Definition findall (r : regex) (s : text) : list text := findall_from r O [] s.
End Run.

(** Pattern syntax *)
Definition seqs (rs : list regex) : regex :=
  match rs with
  | [] => Rep Bol 0 (Some 0%nat)
  | r :: rs' => foldl Seq r rs'
  end.
Definition lit (s : string) : regex := seqs (Chr <$> text_of s).
Definition alts (r : regex) (rs : list regex) : regex := foldl Alt r rs.
Definition opt (r : regex) : regex := Rep r 0 (Some 1%nat).
Definition star (r : regex) : regex := Rep r 0 None.
Definition plus (r : regex) : regex := Rep r 1 None.
Definition times (r : regex) (lo hi : nat) : regex := Rep r lo (Some hi).
Definition one_of (s : string) : regex := Cls (fun c => bool_decide (c ∈ text_of s)).
Definition digit : regex := Cls is_digit.
Definition space : regex := Cls is_space.
Definition word : regex := Cls is_word.

(** ** backend/parser.py *)

(** [datetime.datetime] (naive) *)
Record datetime := Datetime {
  year : Z; month : Z; day : Z;
  hour : Z; minute : Z; second : Z; microsecond : Z
}.

Module Parser.

Local Open Scope string_scope.

(** The dictionary [parse_receipt_text] returns.  [transaction_date] and
    [category] start as [None] in the source, hence the options. *)
Record parsed := Parsed {
  vendor : text;
  transaction_date : option datetime;
  amount : Qc;
  category : option text;
  extracted_text : text
}.

(** [supermarket|groceries|store|shop|cafe|restaurant|pharmacy|utility|
    internet|electricity] and [Walmart|Target|Kroger|Amazon|Starbucks|
    Local Cafe|Best Buy|Vodafone|Reliance Jio|BESCOM], both searched with
    [re.IGNORECASE] *)
Definition vendor_patterns : list regex := [
  alts (lit "supermarket")
    (lit <$> ["groceries"; "store"; "shop"; "cafe"; "restaurant"; "pharmacy";
              "utility"; "internet"; "electricity"]);
  alts (lit "Walmart")
    (lit <$> ["Target"; "Kroger"; "Amazon"; "Starbucks"; "Local Cafe";
              "Best Buy"; "Vodafone"; "Reliance Jio"; "BESCOM"])
].

(** [^\d{1,2}[/-]\d{1,2}[/-]\d{2,4}$|^\d+\.\d{2}$] *)
Definition bare_date_or_amount : regex :=
  Alt (seqs [Bol; times digit 1 2; one_of "/-"; times digit 1 2; one_of "/-";
             times digit 2 4; Eol])
      (seqs [Bol; plus digit; Chr dot; times digit 2 2; Eol]).

(** [(?:Jan|Feb|Mar|Apr|May|Jun|Jul|Aug|Sep|Oct|Nov|Dec)] *)
Definition month_abbr : regex :=
  alts (lit "Jan")
    (lit <$> ["Feb"; "Mar"; "Apr"; "May"; "Jun"; "Jul"; "Aug"; "Sep"; "Oct";
              "Nov"; "Dec"]).

(** [\d{1,2}[-/.]\d{1,2}[-/.]\d{2,4}], [\d{4}[-/.]\d{1,2}[-/.]\d{1,2}],
    [\b\d{1,2}\s+(?:Jan|...|Dec)\w*\s+\d{2,4}\b] and
    [\b(?:Jan|...|Dec)\w*\s+\d{1,2},\s+\d{2,4}\b], searched as they are *)
Definition date_patterns : list regex := [
  seqs [times digit 1 2; one_of "-/."; times digit 1 2; one_of "-/."; times digit 2 4];
  seqs [times digit 4 4; one_of "-/."; times digit 1 2; one_of "-/."; times digit 1 2];
  seqs [WordB; times digit 1 2; plus space; month_abbr; star word; plus space;
        times digit 2 4; WordB];
  seqs [WordB; month_abbr; star word; plus space; times digit 1 2; Chr comma;
        plus space; times digit 2 4; WordB]
].

Definition date_formats : list string :=
  ["%d/%m/%Y"; "%m/%d/%Y"; "%Y-%m-%d"; "%d-%m-%Y"; "%d.%m.%Y"; "%m.%d.%Y";
   "%d %b %Y"; "%d %B %Y"; "%b %d, %Y"; "%B %d, %Y"].

(** [[\$€£₹]] *)
Definition currency_symbol : regex :=
  Cls (fun c => bool_decide (c ∈ [36; 8364; 163; 8377]%N)).

(** [(\d{1,3}(?:[.,]\d{3})*(?:[.,]\d{1,2}))] *)
Definition number : regex :=
  Grp (seqs [times digit 1 3; star (Seq (one_of ".,") (times digit 3 3));
             Seq (one_of ".,") (times digit 1 2)]).

(** The four amount patterns, in the order of the source list, searched with
    [re.IGNORECASE]:
    [(?:TOTAL|AMOUNT|BALANCE|DUE)\s*[:]?\s*[\$€£₹]?\s*(number)],
    [[\$€£₹]\s*(number)], [(number)\s*(?:INR|USD|EUR|GBP)] and
    [(number)\s*$]. *)
Definition keyword_anchored : regex :=
  seqs [alts (lit "TOTAL") (lit <$> ["AMOUNT"; "BALANCE"; "DUE"]); star space;
        opt (Chr colon); star space; opt currency_symbol; star space; number].
Definition symbol_prefixed : regex := seqs [currency_symbol; star space; number].
Definition code_suffixed : regex :=
  seqs [number; star space; alts (lit "INR") (lit <$> ["USD"; "EUR"; "GBP"])].
Definition trailing_decimal : regex := seqs [number; star space; Eol].

Definition amount_patterns : list regex :=
  [keyword_anchored; symbol_prefixed; code_suffixed; trailing_decimal].

Definition digits_value (s : text) : Z :=
  foldl (fun acc c => acc * 10 + Z.of_N (c - 48))%Z 0%Z s.

Definition pow10 (n : nat) : positive := Nat.iter n (Pos.mul 10) 1%positive.

Fixpoint span_digits (s : text) : text * text :=
  match s with
  | c :: s' =>
      if is_digit c then let '(d, r) := span_digits s' in (c :: d, r)
      else ([], s)
  | [] => ([], [])
  end.

(** [float(s)] on a numeral made of digits and dots, which is all the call
    site builds; [None] is [ValueError]. *)
Definition float_of (s : text) : option Qc :=
  let '(ip, r) := span_digits s in
  match r with
  | [] => if bool_decide (ip = []) then None else Some (Q2Qc (digits_value ip # 1))
  | c :: fp =>
      if (c =? dot)%N && forallb is_digit fp
         && negb (bool_decide (ip = []) && bool_decide (fp = []))
      then Some (Q2Qc (digits_value (ip ++ fp) # pow10 (length fp)))
      else None
  end.

Definition unknown_vendor : text := text_of "Unknown Vendor".
Definition sentinel_amount : Qc := Q2Qc (1 # 100).

Definition categories : list text :=
  text_of <$> ["Groceries"; "Utilities"; "Internet/Telecom"; "Dining"; "Health";
               "Miscellaneous"].

(** The four parts of [parse_receipt_text], vendor, date, amount and
    category, each a definition, and the function that puts them together. *)
Section Extract.
(** [datetime.strptime] ([None] is [ValueError]) and [datetime.now()] *)
Variable strptime : text -> string -> option datetime.
Variable now : datetime.

(** The keyword scan: the first pattern that is found anywhere. *)
Definition vendor_keyword (t : text) : option text :=
  strip <$> first_some (fun p => search true p t) vendor_patterns.

(** [lines = [line.strip() for line in text.split('\n') if line.strip()]] *)
Definition lines_of (t : text) : list text :=
  strip <$> filter (fun l => strip l ≠ []) (split_lines t).

(** The test of the line loop *)
Definition vendor_line_ok (line : text) : bool :=
  negb (bool_decide (is_Some (search false bare_date_or_amount line)))
  && bool_decide (3 < length line < 30)%nat.

Definition vendor_line (t : text) : option text :=
  head (filter (fun l => vendor_line_ok l = true) (lines_of t)).

(** The two loops run one after the other: the second assigns [vendor]
    whenever it finds a line. *)
Definition extract_vendor (t : text) : text :=
  let vendor := unknown_vendor in
  let vendor := default vendor (vendor_keyword t) in
  let vendor := default vendor (vendor_line t) in
  vendor.

(** The inner loop of the date part: the first format that parses. *)
Definition try_formats (date_str : text) : option datetime :=
  first_some (strptime date_str) date_formats.

Definition extract_date (t : text) : option datetime :=
  let transaction_date :=
    first_some (fun p => search false p t ≫= try_formats) date_patterns in
  match transaction_date with
  | None => Some now
  | Some d => Some d
  end.

(** One turn of the amount loop: [Some] is the [break]. *)
Definition try_amount (p : regex) (t : text) : option Qc :=
  raw_amount ← last (findall true p t);
  parsed_amount ← float_of (replace_char comma dot raw_amount);
  if bool_decide (0 < parsed_amount)%Qc then Some parsed_amount else None.

Definition extract_amount (t : text) : Qc :=
  match first_some (fun p => try_amount p t) amount_patterns with
  | Some a => a
  | None => sentinel_amount
  end.

Definition extract_category (t : text) : option text :=
  let text_lower := lower t in
  let has s := contains (text_of s) text_lower in
  if has "grocer" || has "supermarket" || has "food" then Some (text_of "Groceries")
  else if has "electric" || has "power" || has "utility" then Some (text_of "Utilities")
  else if has "internet" || has "broadband" || has "telecom" then Some (text_of "Internet/Telecom")
  else if has "restaurant" || has "cafe" || has "dine" then Some (text_of "Dining")
  else if has "pharmacy" || has "medicine" || has "health" then Some (text_of "Health")
  else Some (text_of "Miscellaneous").

Definition parse_receipt_text (t : text) : parsed :=
  {| vendor := extract_vendor t;
     transaction_date := extract_date t;
     amount := extract_amount t;
     category := extract_category t;
     extracted_text := t |}.
End Extract.

End Parser.

(** ** backend/algorithms.py *)

Module Algorithms.

Local Open Scope string_scope.

(** The exceptions the functions can raise. *)
Inductive exn := TypeError | ValueError | IndexError.

Inductive result (A : Type) : Type :=
| Ok (a : A)
| Err (e : exn).
Arguments Ok {A} a.
Arguments Err {A} e.

#[global] Instance result_ret : MRet result := @Ok.
#[global] Instance result_bind : MBind result := fun A B f m =>
  match m with
  | Ok a => f a
  | Err e => Err e
  end.
#[global] Instance result_fmap : FMap result := fun A B f m =>
  match m with
  | Ok a => Ok (f a)
  | Err e => Err e
  end.

(** The values a receipt dictionary holds: numbers ([int], [float]) and
    everything else, of which the columns of the store give [None], [str] and
    [datetime]. *)
Inductive object :=
| ONone
| OStr (s : string)
| ODate (d : datetime).

Inductive value :=
| VNum (q : Qc)
| VObj (o : object).

#[global] Instance datetime_eq_dec : EqDecision datetime.
Proof. solve_decision. Defined.
#[global] Instance object_eq_dec : EqDecision object.
Proof. solve_decision. Defined.
#[global] Instance value_eq_dec : EqDecision value.
Proof. solve_decision. Defined.

Abbreviation receipt := (gmap string value).

(** [x.get(key, default)] *)
Definition get (x : receipt) (key : string) (dflt : value) : value :=
  default dflt (x !! key).

(** Decimal rendering, zero-padded to [width] digits. *)
Definition digit_char (n : Z) : Ascii.ascii := Ascii.ascii_of_N (Z.to_N (48 + n mod 10)).
Fixpoint zero_padded (width : nat) (n : Z) : string :=
  match width with
  | O => ""
  | S w => zero_padded w (n / 10) ++ String (digit_char n) ""
  end.

(** [str(d)] for a [datetime]: [YYYY-MM-DD HH:MM:SS], with the microseconds
    appended when they are not zero. *)
Definition str_datetime (d : datetime) : string :=
  zero_padded 4 (year d) ++ "-" ++ zero_padded 2 (month d) ++ "-" ++
  zero_padded 2 (day d) ++ " " ++ zero_padded 2 (hour d) ++ ":" ++
  zero_padded 2 (minute d) ++ ":" ++ zero_padded 2 (second d) ++
  (if bool_decide (microsecond d = 0%Z) then ""
   else "." ++ zero_padded 6 (microsecond d)).

(** [str(o)] for a value that is not a number *)
Definition str (o : object) : string :=
  match o with
  | ONone => "None"
  | OStr s => s
  | ODate d => str_datetime d
  end.

(** [<] on numbers *)
Definition num_ltb (a b : Qc) : bool := bool_decide (a < b)%Qc.

(** [<] on strings: lexicographic *)
Definition str_ltb (a b : string) : bool :=
  match String_as_OT.compare a b with
  | Lt => true
  | _ => false
  end.

(** *** [sorted] *)

(** The sort of [list.sort] is stable and uses [<] only; it is modelled by a
    stable insertion sort, in which a comparison can raise. *)
Section Sorted.
Context {A : Type} (lt : A -> A -> result bool).

(** [x] goes before the first element that is not smaller than it. *)
Fixpoint insert (x : A) (l : list A) : result (list A) :=
  match l with
  | [] => Ok [x]
  | y :: l' =>
      b ← lt y x;
      if b : bool then l'' ← insert x l'; Ok (y :: l'')
      else Ok (x :: y :: l')
  end.

Fixpoint sort (l : list A) : result (list A) :=
  match l with
  | [] => Ok []
  | x :: l' => s ← sort l'; insert x s
  end.

(** [sorted(l, reverse=...)]: a new list; with [reverse] the list is
    reversed before and after the sort, which keeps ties in their order. *)
Definition sorted (l : list A) (reverse : bool) : result (list A) :=
  if reverse then s ← sort (rev l); Ok (rev s) else sort l.
End Sorted.

(** *** [sort_receipts] *)

(** The object the key function returns: a number or a string. *)
Inductive sort_key :=
| KNum (q : Qc)
| KStr (s : string).

(** [lambda x: x.get(key, 0) if isinstance(x.get(key), (int, float))
    else str(x.get(key, ''))], with its three calls of [get].  When the test
    holds the field is there and the default 0 is not used; when it fails
    what [str] is given is not a number. *)
Definition key_of (key : string) (x : receipt) : sort_key :=
  match get x key (VObj ONone) with
  | VNum _ =>
      match get x key (VNum 0) with
      | VNum q => KNum q
      | VObj o => KStr (str o)
      end
  | VObj _ =>
      match get x key (VObj (OStr "")) with
      | VNum q => KNum q
      | VObj o => KStr (str o)
      end
  end.

(** [a < b] on keys: numbers with numbers, strings with strings; anything
    else is a [TypeError]. *)
Definition key_lt (a b : sort_key) : result bool :=
  match a, b with
  | KNum p, KNum q => Ok (num_ltb p q)
  | KStr s, KStr t => Ok (str_ltb s t)
  | _, _ => Err TypeError
  end.

(** The sort compares the keys, computed once for each receipt. *)
Definition decorate (key : string) (x : receipt) : sort_key * receipt := (key_of key x, x).
Definition decorated_lt (a b : sort_key * receipt) : result bool := key_lt a.1 b.1.

Definition sort_receipts (receipts : list receipt) (key : string) (reverse : bool)
  : result (list receipt) :=
  s ← sorted decorated_lt (decorate key <$> receipts) reverse;
  Ok (snd <$> (s : list (sort_key * receipt))).

(** Lists are objects: a call of [sort_receipts] reads the list [receipts]
    refers to and allocates the list that [sorted] builds. *)
Definition call_sort_receipts (h : gmap nat (list receipt)) (receipts : nat)
    (key : string) (reverse : bool) : result (nat * gmap nat (list receipt)) :=
  out ← sort_receipts (default [] (h !! receipts)) key reverse;
  let l := fresh (dom h) in
  Ok (l, <[l := out]> h).

(** *** [calculate_aggregates] *)

(** [collections.Counter]: a dictionary, the keys in the order in which they
    were first added.  [c[k] += v] reads 0 for a key that is not there. *)
Section Counter.
Context {K V : Type} `{EqDecision K} (plus : V -> V -> V) (zero : V).

Fixpoint counter_add (k : K) (v : V) (c : list (K * V)) : list (K * V) :=
  match c with
  | [] => [(k, plus zero v)]
  | (k', n) :: c' =>
      if decide (k = k') then (k', plus n v) :: c'
      else (k', n) :: counter_add k v c'
  end.
End Counter.

(** [Counter(l)]: each element counts for one. *)
Definition Counter {K} `{EqDecision K} (l : list K) : list (K * nat) :=
  foldl (fun c k => counter_add Nat.add 0%nat k 1%nat c) [] l.

Record aggregates := Aggregates {
  total_spend : Qc;
  mean_spend : Qc;
  median_spend : Qc;
  mode_spend : list Qc;
  vendor_frequency : list (value * nat);
  category_frequency : list (value * nat)
}.

(** A number where an arithmetic operation needs one. *)
Definition number_of (v : value) : result Qc :=
  match v with
  | VNum q => Ok q
  | VObj _ => Err TypeError
  end.

Fixpoint numbers_of (l : list value) : result (list Qc) :=
  match l with
  | [] => Ok []
  | v :: l' => q ← number_of v; qs ← numbers_of l'; Ok (q :: qs)
  end.

(** [l[i]] for an index that is not negative *)
Definition item {A} (l : list A) (i : nat) : result A :=
  match l !! i with
  | Some x => Ok x
  | None => Err IndexError
  end.

Definition num_lt (a b : Qc) : result bool := Ok (num_ltb a b).

Definition sum (l : list Qc) : Qc := foldl Qcplus 0%Qc l.

(** The lines under [# Median] *)
Definition median_of (amounts : list Qc) : result Qc :=
  sorted_amounts ← sorted num_lt amounts false;
  let n := length sorted_amounts in
  if bool_decide (n mod 2 = 0)%nat
  then lo ← item sorted_amounts (n / 2 - 1)%nat;
       hi ← item sorted_amounts (n / 2)%nat;
       Ok ((lo + hi) / 2)%Qc
  else item sorted_amounts (n / 2)%nat.

(** [max(amount_counts.values())] *)
Definition max_value {K} (c : list (K * nat)) : nat := foldr Nat.max 0%nat (snd <$> c).

(** The lines under [# Mode] *)
Definition mode_of (amounts : list Qc) : list Qc :=
  let amount_counts := Counter amounts in
  let max_count :=
    if bool_decide (amount_counts = []) then 0%nat else max_value amount_counts in
  fst <$> filter (fun ac => ac.2 = max_count) amount_counts.

Definition calculate_aggregates (receipts : list receipt) : result aggregates :=
  match receipts with
  | [] => Ok (Aggregates 0 0 0 [] [] [])
  | _ =>
      let amounts : list value := (fun r => get r "amount" (VNum 0)) <$> receipts in
      let vendors : list value :=
        (fun r => get r "vendor" (VObj (OStr "Unknown"))) <$> receipts in
      let categories : list value :=
        (fun r => get r "category" (VObj (OStr "Unknown"))) <$> receipts in
      (* [sum(amounts)] adds the amounts to 0 and raises on the first value
         that is not a number; past it all of them are numbers *)
      amounts ← numbers_of amounts;
      let total_spend := sum amounts in
      let mean_spend := (total_spend / Qc_of_Z (Z.of_nat (length amounts)))%Qc in
      median_spend ← median_of amounts;
      let mode_spend := mode_of amounts in
      Ok (Aggregates total_spend mean_spend median_spend mode_spend
            (Counter vendors) (Counter categories))
  end.

(** *** [time_series_aggregation] *)

(** [tx_date.strftime("%Y-%m")] and [tx_date.strftime("%Y")]: the format
    goes to [strftime] of the C library, which (glibc) writes the year as a
    decimal numeral with no padding, 999 as "999", and the month on two
    digits. *)
Definition strftime_month (d : datetime) : string :=
  pretty (year d) ++ "-" ++ zero_padded 2 (month d).
Definition strftime_year (d : datetime) : string := pretty (year d).

(** The body of the loop on one receipt. *)
Definition time_series_step (period : string) (time_series_data : list (string * Qc))
    (receipt : receipt) : result (list (string * Qc)) :=
  let tx_date := get receipt "transaction_date" (VObj ONone) in
  let amount := get receipt "amount" (VNum 0) in
  match tx_date with
  | VObj (ODate d) =>
      key ← (if decide (period = "month") then Ok (strftime_month d)
             else if decide (period = "year") then Ok (strftime_year d)
             else Err ValueError);
      amount ← number_of amount;
      Ok (counter_add Qcplus 0%Qc key amount time_series_data)
  | _ => Ok time_series_data
  end.

Fixpoint time_series_loop (period : string) (time_series_data : list (string * Qc))
    (receipts : list receipt) : result (list (string * Qc)) :=
  match receipts with
  | [] => Ok time_series_data
  | r :: rs =>
      time_series_data ← time_series_step period time_series_data r;
      time_series_loop period time_series_data rs
  end.

(** [<] on the items of the counter: pairs compare by their first
    components, which differ in a dictionary. *)
Definition item_lt (a b : string * Qc) : result bool := Ok (str_ltb a.1 b.1).

Definition time_series_aggregation (receipts : list receipt) (period : string)
  : result (list (string * Qc)) :=
  time_series_data ← time_series_loop period [] receipts;
  sorted item_lt time_series_data false.

(** *** The searches *)

(** The order of [datetime] objects: that of their fields, from the year to
    the microsecond. *)
Definition fields (d : datetime) : list Z :=
  [year d; month d; day d; hour d; minute d; second d; microsecond d].
Fixpoint lex_ltb (a b : list Z) : bool :=
  match a, b with
  | x :: a', y :: b' => (x <? y)%Z || ((x =? y)%Z && lex_ltb a' b')
  | [], _ :: _ => true
  | _, [] => false
  end.
(** [d1 < d2] *)
Definition before (d1 d2 : datetime) : bool := lex_ltb (fields d1) (fields d2).

(** The loop the three searches share: the receipts for which the test
    holds are appended to [results], in their order; a test can raise. *)
Fixpoint search_loop (test : receipt -> result bool) (results receipts : list receipt)
  : result (list receipt) :=
  match receipts with
  | [] => Ok results
  | receipt :: receipts' =>
      b ← test receipt;
      search_loop test (if b : bool then results ++ [receipt] else results) receipts'
  end.

(** [needle in hay] on strings *)
Fixpoint str_in (needle hay : string) : bool :=
  String.prefix needle hay ||
  match hay with
  | "" => false
  | String _ hay' => str_in needle hay'
  end.

(** [bool(v)]: [None], the empty string and zero are false. *)
Definition truthy (v : value) : bool :=
  match v with
  | VNum q => negb (bool_decide (q = 0%Qc))
  | VObj ONone => false
  | VObj (OStr s) => negb (bool_decide (s = ""))
  | VObj (ODate _) => true
  end.

Section LinearSearch.
(** [str] of a number and [str.lower] are those of the language. *)
Variable str_num : Qc -> string.
Variable str_lower : string -> string.

Definition str_value (v : value) : string :=
  match v with
  | VNum q => str_num q
  | VObj o => str o
  end.

(** [str(receipt.get(field, "") or "")] *)
Definition field_text (receipt : receipt) (field : string) : string :=
  let v := get receipt field (VObj (OStr "")) in
  str_value (if truthy v then v else VObj (OStr "")).

(** The body of the loop of [linear_search_receipts] on one receipt. *)
Definition linear_search_test (query field : string) (case_sensitive : bool)
    (receipt : receipt) : result bool :=
  let field_value := field_text receipt field in
  if negb case_sensitive then
    let field_value := str_lower field_value in
    let query_lower := str_lower query in
    Ok (str_in query_lower field_value)
  else Ok (str_in query field_value).

Definition linear_search_receipts (receipts : list receipt) (query field : string)
    (case_sensitive : bool) : result (list receipt) :=
  search_loop (linear_search_test query field case_sensitive) [] receipts.
End LinearSearch.

(** [a >= b] and [a <= b] where [b] is a number: a [TypeError] when [a] is
    a string or a date. *)
Definition num_ge (a : value) (b : Qc) : result bool :=
  match a with
  | VNum q => Ok (bool_decide (b <= q)%Qc)
  | VObj _ => Err TypeError
  end.
Definition num_le (a : value) (b : Qc) : result bool :=
  match a with
  | VNum q => Ok (bool_decide (q <= b)%Qc)
  | VObj _ => Err TypeError
  end.

(** The body of the loop of [range_search_receipts_by_amount]: an amount
    that is [None] or missing is passed over; [and] and [or] evaluate their
    second operand only when the first does not decide. *)
Definition amount_test (min_amount max_amount : option Qc) (receipt : receipt)
  : result bool :=
  match get receipt "amount" (VObj ONone) with
  | VObj ONone => Ok false
  | amount =>
      lo ← match min_amount with
           | None => Ok true
           | Some m => num_ge amount m
           end;
      if lo : bool then
        match max_amount with
        | None => Ok true
        | Some m => num_le amount m
        end
      else Ok false
  end.

Definition range_search_receipts_by_amount (receipts : list receipt)
    (min_amount max_amount : option Qc) : result (list receipt) :=
  search_loop (amount_test min_amount max_amount) [] receipts.

(** [a >= b] and [a <= b] where [b] is a [datetime]: a [TypeError] when
    [a] is a number or a string. *)
Definition date_ge (a : value) (b : datetime) : result bool :=
  match a with
  | VObj (ODate d) => Ok (negb (before d b))
  | _ => Err TypeError
  end.
Definition date_le (a : value) (b : datetime) : result bool :=
  match a with
  | VObj (ODate d) => Ok (negb (before b d))
  | _ => Err TypeError
  end.

(** The body of the loop of [range_search_receipts_by_date] *)
Definition date_test (start_date end_date : option datetime) (receipt : receipt)
  : result bool :=
  match get receipt "transaction_date" (VObj ONone) with
  | VObj ONone => Ok false
  | tx_date =>
      lo ← match start_date with
           | None => Ok true
           | Some d => date_ge tx_date d
           end;
      if lo : bool then
        match end_date with
        | None => Ok true
        | Some d => date_le tx_date d
        end
      else Ok false
  end.

Definition range_search_receipts_by_date (receipts : list receipt)
    (start_date end_date : option datetime) : result (list receipt) :=
  search_loop (date_test start_date end_date) [] receipts.

End Algorithms.

(** ** backend/models.py *)

Module Models.

(** [ReceiptCreate]: the fields of a receipt that is to be stored. *)
Record ReceiptCreate := {
  filename : text;
  vendor : text;
  transaction_date : datetime;
  amount : Qc;
  category : option text;
  extracted_text : text
}.

(** The validation of [ReceiptCreate(...)] on values of the types the parser
    gives: a vendor of at least one character ([min_length=1]), a date (the
    field is not optional), and an amount above zero ([gt=0]).  [None] is the
    [ValidationError]. *)
Definition validate (filename vendor : text) (transaction_date : option datetime)
    (amount : Qc) (category : option text) (extracted_text : text)
  : option ReceiptCreate :=
  if bool_decide (1 ≤ length vendor)%nat then
    match transaction_date with
    | Some d =>
        if bool_decide (0 < amount)%Qc
        then Some (Build_ReceiptCreate filename vendor d amount category extracted_text)
        else None
    | None => None
    end
  else None.

End Models.

(** ** backend/main.py

    The receipts of the database are an argument of each endpoint, as the
    list of dictionaries the endpoint makes of them; the conversion of the
    answer to the response model is not part of the embedding. *)

Module Main.

Import Parser Algorithms.
Local Open Scope string_scope.

(** What an endpoint comes to: a value, an [HTTPException], or an exception
    that it lets escape. *)
Inductive response (A : Type) : Type :=
| Returned (a : A)
| HTTPException (status_code : nat) (detail : string)
| Raised (e : exn).
Arguments Returned {A} a.
Arguments HTTPException {A} status_code detail.
Arguments Raised {A} e.

#[global] Instance response_ret : MRet response := @Returned.
#[global] Instance response_bind : MBind response := fun A B f m =>
  match m with
  | Returned a => f a
  | HTTPException c d => HTTPException c d
  | Raised e => Raised e
  end.

(** A call of a function of [algorithms]. *)
Definition call {A} (r : result A) : response A :=
  match r with
  | Ok a => Returned a
  | Err e => Raised e
  end.

(** [bool(s)] for an optional string: [None] and the empty string are false. *)
Definition given (s : option string) : bool :=
  match s with
  | Some (String _ _) => true
  | _ => false
  end.

Section Endpoints.
Variable str_num : Qc -> string.
Variable str_lower : string -> string.
Variable strptime : text -> string -> option datetime.
Variable now : datetime.

(** [upload_receipt], from the parsing of the extracted text to the
    validated [receipt_data]; the detail of the 422 goes on with the message
    of the validation error. *)
Definition receipt_data (filename extracted_text : text) : response Models.ReceiptCreate :=
  let parsed_data := parse_receipt_text strptime now extracted_text in
  match Models.validate filename (Parser.vendor parsed_data)
          (Parser.transaction_date parsed_data) (Parser.amount parsed_data)
          (Parser.category parsed_data) extracted_text with
  | Some receipt_data => Returned receipt_data
  | None => HTTPException 422 "Data validation failed: "
  end.

(** [search_receipts]: the list [filtered_receipts] that the endpoint hands
    to the response model. *)
Definition filtered_receipts (receipts_as_dicts : list receipt)
    (query field : option string) (min_amount max_amount : option Qc)
    (start_date end_date : option datetime) : response (list receipt) :=
  let filtered_receipts := receipts_as_dicts in
  filtered_receipts ←
    (if given query && given field then
       if bool_decide (default "" field ∈ ["vendor"; "category"; "extracted_text"; "filename"])
       then call (linear_search_receipts str_num str_lower filtered_receipts
                    (default "" query) (default "" field) false)
       else HTTPException 400 "Invalid search field."
     else Returned filtered_receipts);
  filtered_receipts ←
    (if bool_decide (min_amount ≠ None) || bool_decide (max_amount ≠ None)
     then call (range_search_receipts_by_amount filtered_receipts min_amount max_amount)
     else Returned filtered_receipts);
  filtered_receipts ←
    (if bool_decide (start_date ≠ None) || bool_decide (end_date ≠ None)
     then call (range_search_receipts_by_date filtered_receipts start_date end_date)
     else Returned filtered_receipts);
  Returned filtered_receipts.

(** [sort_receipts_endpoint]: the list [sorted_receipts] that the endpoint
    hands to the response model. *)
Definition sorted_receipts (receipts_as_dicts : list receipt)
    (sort_by order : string) : response (list receipt) :=
  if negb (bool_decide
             (sort_by ∈ ["vendor"; "transaction_date"; "amount"; "category"; "uploaded_at"]))
  then HTTPException 400 "Invalid sort_by field."
  else if negb (bool_decide (order ∈ ["asc"; "desc"]))
  then HTTPException 400 "Invalid order. Must be 'asc' or 'desc'."
  else
    let reverse_sort := if bool_decide (order = "desc") then true else false in
    call (sort_receipts receipts_as_dicts sort_by reverse_sort).

(** [<] on the counts of the items of [vendor_frequency] *)
Definition count_lt (a b : value * nat) : result bool := Ok (a.2 <? b.2)%nat.

(** The dictionary [get_insights] returns. *)
Record insights := Insights {
  total_spend : Qc;
  mean_spend : Qc;
  median_spend : Qc;
  mode_spend : list Qc;
  top_vendors : list (value * nat);
  category_distribution : list (value * nat);
  monthly_spend_trend : list (string * Qc);
  yearly_spend_trend : list (string * Qc)
}.

Definition get_insights (receipts_as_dicts : list receipt) : response insights :=
  basic_aggregates ← call (calculate_aggregates receipts_as_dicts);
  monthly_spend_trend ← call (time_series_aggregation receipts_as_dicts "month");
  yearly_spend_trend ← call (time_series_aggregation receipts_as_dicts "year");
  let vendor_frequency := Algorithms.vendor_frequency basic_aggregates in
  sorted_vendors ← call (sorted count_lt vendor_frequency true);
  let top_vendors := take 5 sorted_vendors in
  let category_distribution := Algorithms.category_frequency basic_aggregates in
  Returned (Insights (Algorithms.total_spend basic_aggregates)
              (Algorithms.mean_spend basic_aggregates)
              (Algorithms.median_spend basic_aggregates)
              (Algorithms.mode_spend basic_aggregates)
              top_vendors category_distribution
              monthly_spend_trend yearly_spend_trend).
End Endpoints.

End Main.


(** ** Vocabulary of the statements *)

Import Parser Algorithms.

(** The stable insertion sort for a comparison that cannot raise. *)
Section SortPure.
Context {A K : Type} (key : A -> K) (ltb : K -> K -> bool).

Fixpoint insert_pure (x : A) (l : list A) : list A :=
  match l with
  | [] => [x]
  | y :: l' =>
      if ltb (key y) (key x) then y :: insert_pure x l' else x :: y :: l'
  end.

Definition sort_pure (l : list A) : list A := foldr insert_pure [] l.

(** [x] is not after [y]: the key of [y] is not below that of [x]. *)
Definition key_le (x y : A) : Prop := ltb (key y) (key x) = false.
End SortPure.

(** A pattern that starts with a letter in each of its alternatives. *)
Fixpoint starts_solid (r : regex) : bool :=
  match r with
  | Chr c => is_upper c || is_lower c
  | Seq a _ => starts_solid a
  | Alt a b => starts_solid a && starts_solid b
  | Grp a => starts_solid a
  | _ => false
  end.

(** [e] is reached from [k] by reading [rev pre]. *)
Definition extends (k e : cursor) : Prop :=
  ∃ pre, seen e = pre ++ seen k ∧ rest k = rev pre ++ rest e.

Definition category_keywords : list string :=
  ["grocer"; "supermarket"; "food"; "electric"; "power"; "utility"; "internet";
   "broadband"; "telecom"; "restaurant"; "cafe"; "dine"; "pharmacy"; "medicine";
   "health"]%string.

(** The values a [datetime] object can hold. *)
Definition is_leap (y : Z) : bool :=
  ((y mod 4 =? 0) && (negb (y mod 100 =? 0) || (y mod 400 =? 0)))%Z.
Definition days_in_month (y m : Z) : Z :=
  if (m =? 2)%Z then (if is_leap y then 29 else 28)%Z
  else if bool_decide (m ∈ [4; 6; 9; 11]%Z) then 30%Z else 31%Z.
Definition valid_datetime (d : datetime) : Prop :=
  (1 ≤ year d ≤ 9999 ∧ 1 ≤ month d ≤ 12 ∧
   1 ≤ day d ≤ days_in_month (year d) (month d) ∧
   0 ≤ hour d < 24 ∧ 0 ≤ minute d < 60 ∧ 0 ≤ second d < 60 ∧
   0 ≤ microsecond d < 1000000)%Z.

(** Commas become dots. *)
Definition normalize (raw : text) : text := replace_char comma dot raw.

(** The pattern [p] yields [q] on [t]: the last of all its matches, once
    normalized, parses to [q], and [q] is positive. *)
Definition yields (p : regex) (t : text) (q : Qc) : Prop :=
  ∃ raw, last (findall true p t) = Some raw ∧
         float_of (normalize raw) = Some q ∧ (0 < q)%Qc.

Definition count_char (c : char) (s : text) : nat :=
  length (filter (fun x => x = c) s).

(** The comparison [lt] does not raise on [l], where it is [ltb] on the keys. *)
Definition agrees {A K} (key : A -> K) (ltb : K -> K -> bool)
    (lt : A -> A -> result bool) (l : list A) : Prop :=
  ∀ x y, x ∈ l -> y ∈ l -> lt x y = Ok (ltb (key x) (key y)).

(** A strict total order given as a boolean test. *)
Class StrictTotal {K : Type} (ltb : K -> K -> bool) : Prop := {
  ltb_irrefl k : ltb k k = false;
  ltb_trans a b c : ltb a b = true -> ltb b c = true -> ltb a c = true;
  ltb_total a b : ltb a b = false -> ltb b a = false -> a = b
}.

Definition is_num_key (k : sort_key) : bool :=
  match k with
  | KNum _ => true
  | KStr _ => false
  end.

(** The comparison of keys, made total by putting numbers first. *)
Definition key_ltb (a b : sort_key) : bool :=
  match a, b with
  | KNum p, KNum q => num_ltb p q
  | KStr s, KStr t => str_ltb s t
  | KNum _, KStr _ => true
  | KStr _, KNum _ => false
  end.

(** The keys are of one kind: numbers only or strings only. *)
Definition one_kind (ks : list sort_key) : Prop :=
  Forall (fun k => is_num_key k = true) ks ∨ Forall (fun k => is_num_key k = false) ks.

(** [a <= b] on keys of the same kind: numeric on numbers, lexicographic on
    strings. *)
Inductive key_leq : sort_key -> sort_key -> Prop :=
| leq_num p q : (p <= q)%Qc -> key_leq (KNum p) (KNum q)
| leq_str s t : str_ltb t s = false -> key_leq (KStr s) (KStr t).

#[global] Instance sort_key_eq_dec : EqDecision sort_key.
Proof. solve_decision. Defined.

(** The values of a field, and a field that holds values of one type in all
    receipts: numbers, strings or dates. *)
Definition field_values (key : string) (rs : list receipt) : list (option value) :=
  (fun r : receipt => r !! key) <$> rs.
Definition typed_field (key : string) (rs : list receipt) : Prop :=
  Forall (fun r => ∃ q, r !! key = Some (VNum q)) rs ∨
  Forall (fun r => ∃ s, r !! key = Some (VObj (OStr s))) rs ∨
  Forall (fun r => ∃ d, r !! key = Some (VObj (ODate d)) ∧ valid_datetime d) rs.

(** The order of the output: ascending by key, or descending with [reverse]. *)
Definition in_order (key : string) (reverse : bool) (x y : receipt) : Prop :=
  if reverse then key_leq (key_of key y) (key_of key x)
  else key_leq (key_of key x) (key_of key y).

(** [c[k]], 0 for a key that is not there *)
Fixpoint value_at {K V} `{EqDecision K} (zero : V) (c : list (K * V)) (k : K) : V :=
  match c with
  | [] => zero
  | (k', v) :: c' => if decide (k = k') then v else value_at zero c' k
  end.

(** How many times [k] occurs in [l] *)
Definition occurrences {K} `{EqDecision K} (k : K) (l : list K) : nat :=
  length (filter (fun x => x = k) l).

Definition is_number (v : value) : bool :=
  match v with
  | VNum _ => true
  | VObj _ => false
  end.

(** Every receipt has a number as its amount, or no amount. *)
Definition numeric_amounts (rs : list receipt) : Prop :=
  Forall (fun r => is_number (get r "amount" (VNum 0)) = true) rs.

(** The amounts of the receipts, in their order. *)
Definition amounts_of (rs : list receipt) : list Qc :=
  (fun r => match get r "amount" (VNum 0) with VNum q => q | VObj _ => 0%Qc end) <$> rs.

(** What the median lines compute from the sorted amounts. *)
Definition is_median (s : list Qc) (m : Qc) : Prop :=
  let n := length s in
  ((n mod 2 = 1)%nat -> s !! (n / 2)%nat = Some m) ∧
  ((n mod 2 = 0)%nat ->
   ∃ lo hi, s !! (n / 2 - 1)%nat = Some lo ∧ s !! (n / 2)%nat = Some hi ∧
            m = ((lo + hi) / 2)%Qc).

Definition is_date (v : value) : bool :=
  match v with
  | VObj (ODate _) => true
  | _ => false
  end.

(** Every receipt that has a date has a number as its amount, or no amount. *)
Definition dated_numeric (rs : list receipt) : Prop :=
  Forall (fun r => negb (is_date (get r "transaction_date" (VObj ONone)))
                   || is_number (get r "amount" (VNum 0)) = true) rs.

(** The label of the period a date falls in. *)
Definition label (period : string) (d : datetime) : string :=
  if decide (period = "month") then strftime_month d else strftime_year d.

(** The receipts that have a date, as pairs of label and amount. *)
Definition entry (period : string) (r : receipt) : option (string * Qc) :=
  match get r "transaction_date" (VObj ONone), get r "amount" (VNum 0) with
  | VObj (ODate d), VNum q => Some (label period d, q)
  | _, _ => None
  end.
Definition entries (period : string) (rs : list receipt) : list (string * Qc) :=
  omap (entry period) rs.

(** The sum of the amounts filed under [k]. *)
Definition bucket (k : string) (es : list (string * Qc)) : Qc :=
  sum (snd <$> filter (fun e => e.1 = k) es).

(** *** Aggregates and series *)

#[local] Instance numeric_amounts_dec rs : Decision (numeric_amounts rs).
Proof. unfold numeric_amounts. apply _. Defined.

(** The vendors and the categories of the receipts, in their order, with the
    default of [get] for a receipt that has none. *)
Definition vendors_of (rs : list receipt) : list value :=
  (fun r => get r "vendor" (VObj (OStr "Unknown"))) <$> rs.
Definition categories_of (rs : list receipt) : list value :=
  (fun r => get r "category" (VObj (OStr "Unknown"))) <$> rs.

(** A receipt the time series looks at: its date is a [datetime]. *)
Definition dated (r : receipt) : bool := is_date (get r "transaction_date" (VObj ONone)).

(** The counter the loop of the time series builds from the entries. *)
Definition filed (es : list (string * Qc)) : list (string * Qc) :=
  foldl (fun c e => counter_add Qcplus 0%Qc e.1 e.2 c) [] es.

(** The rank of the period a date falls in. *)
Definition period_rank (period : string) (d : datetime) : Z :=
  if decide (period = "month"%string) then (year d * 12 + month d)%Z else year d.

(** A date whose year has four digits. *)
Definition four_digit_year (d : datetime) : Prop :=
  valid_datetime d ∧ (1000 ≤ year d)%Z.

Definition is_lt (c : comparison) : bool :=
  match c with
  | Lt => true
  | _ => false
  end.

(** *** Searches and endpoints *)

(** [x] is not after [y] in time, where both hold a date under [key]. *)
Definition not_after (key : string) (x y : receipt) : Prop :=
  ∀ d1 d2, x !! key = Some (VObj (ODate d1)) -> y !! key = Some (VObj (ODate d2)) ->
           before d2 d1 = false.

(** Every receipt holds a date under [key]. *)
Definition all_dates (key : string) (rs : list receipt) : Prop :=
  Forall (fun r => ∃ d, r !! key = Some (VObj (ODate d)) ∧ valid_datetime d) rs.

(** Newest first, or oldest first. *)
Definition by_time (key : string) (newest_first : bool) (x y : receipt) : Prop :=
  if newest_first then not_after key y x else not_after key x y.

(** [needle] occurs in [hay]. *)
Definition occurs_in (needle hay : string) : Prop :=
  ∃ a b, hay = (a ++ needle ++ b)%string.

(** The amount of [r] is a number between the bounds that are given, the
    bounds included. *)
Definition amount_within (lo hi : option Qc) (r : receipt) : Prop :=
  match r !! "amount"%string with
  | Some (VNum q) =>
      from_option (fun m => (m <= q)%Qc) True lo ∧ from_option (fun m => (q <= m)%Qc) True hi
  | _ => False
  end.

#[global] Instance amount_within_dec lo hi r : Decision (amount_within lo hi r).
Proof.
  unfold amount_within. destruct (r !! "amount"%string) as [[q|o]|]; [|apply _..].
  destruct lo, hi; simpl; apply _.
Defined.

(** The date of [r] is a date that is not before [lo] nor after [hi], where
    these are given. *)
Definition date_within (lo hi : option datetime) (r : receipt) : Prop :=
  match r !! "transaction_date"%string with
  | Some (VObj (ODate d)) =>
      from_option (fun s => before d s = false) True lo ∧
      from_option (fun e => before e d = false) True hi
  | _ => False
  end.

#[global] Instance date_within_dec lo hi r : Decision (date_within lo hi r).
Proof.
  unfold date_within.
  destruct (r !! "transaction_date"%string) as [[q|[|s|d]]|]; [apply _..| |apply _].
  destruct lo, hi; simpl; apply _.
Defined.

(** A field that holds [None] or nothing. *)
Definition absent (key : string) (r : receipt) : Prop :=
  r !! key = None ∨ r !! key = Some (VObj ONone).

#[global] Instance absent_dec key r : Decision (absent key r).
Proof. unfold absent. apply _. Defined.

(** The amounts are numbers and the dates are dates, where there are any:
    what the columns of the database hold. *)
Definition amount_column (rs : list receipt) : Prop :=
  Forall (fun r => absent "amount" r ∨ ∃ q, r !! "amount"%string = Some (VNum q)) rs.

(** What the keyword search compares: the text of the field and the query,
    both lower-cased unless the search is case-sensitive. *)
Definition searched_text (str_num : Qc -> string) (str_lower : string -> string)
    (field : string) (case_sensitive : bool) (r : receipt) : string :=
  if case_sensitive then field_text str_num r field
  else str_lower (field_text str_num r field).
Definition searched_query (str_lower : string -> string) (query : string)
    (case_sensitive : bool) : string :=
  if case_sensitive then query else str_lower query.

(** A field that holds nothing, [None], the empty string or zero. *)
Definition blank (field : string) (r : receipt) : Prop :=
  truthy (get r field (VObj (OStr ""))) = false.

(** The three criteria of [search_receipts]; one that is not given holds of
    every receipt. *)
Definition keyword_ok (str_num : Qc -> string) (str_lower : string -> string)
    (query field : option string) (r : receipt) : Prop :=
  Main.given query && Main.given field = true ->
  str_in (str_lower (default ""%string query))
         (str_lower (field_text str_num r (default ""%string field))) = true.
Definition amount_ok (lo hi : option Qc) (r : receipt) : Prop :=
  lo ≠ None ∨ hi ≠ None -> amount_within lo hi r.
Definition date_ok (lo hi : option datetime) (r : receipt) : Prop :=
  lo ≠ None ∨ hi ≠ None -> date_within lo hi r.

#[global] Instance keyword_ok_dec str_num str_lower query field r :
  Decision (keyword_ok str_num str_lower query field r).
Proof. unfold keyword_ok. apply _. Defined.
#[global] Instance amount_ok_dec lo hi r : Decision (amount_ok lo hi r).
Proof. unfold amount_ok. apply _. Defined.
#[global] Instance date_ok_dec lo hi r : Decision (date_ok lo hi r).
Proof. unfold date_ok. apply _. Defined.
#[global] Typeclasses Opaque keyword_ok amount_ok date_ok.

(** The request names a field that cannot be searched. *)
Definition invalid_field (query field : option string) : Prop :=
  Main.given query = true ∧ Main.given field = true ∧
  default ""%string field ∉ ["vendor"; "category"; "extracted_text"; "filename"]%string.

(** *** Matches *)

(** The texts a pattern can match, whatever surrounds them. *)
Fixpoint lang (ic : bool) (r : regex) (s : text) : Prop :=
  match r with
  | Chr c => ∃ d, s = [d] ∧ chr_ok ic c d = true
  | Cls p => ∃ d, s = [d] ∧ p d = true
  | Bol | Eol | WordB => s = []
  | Seq a b => ∃ s1 s2, s = s1 ++ s2 ∧ lang ic a s1 ∧ lang ic b s2
  | Alt a b => lang ic a s ∨ lang ic b s
  | Rep a lo hi =>
      ∃ ss, s = concat ss ∧ Forall (lang ic a) ss ∧ (lo ≤ length ss)%nat ∧
            from_option (fun h => length ss ≤ h)%nat True hi
  | Grp a => lang ic a s
  end.

(** The bodies of the groups of a pattern. *)
Fixpoint groups (r : regex) : list regex :=
  match r with
  | Seq a b | Alt a b => groups a ++ groups b
  | Rep a _ _ => groups a
  | Grp a => a :: groups a
  | _ => []
  end.

(** Every text the pattern matches holds a character with [P]. *)
Fixpoint needs (P : char -> Prop) (ic : bool) (r : regex) : Prop :=
  match r with
  | Chr c => ∀ d, chr_ok ic c d = true -> P d
  | Cls p => ∀ d, p d = true -> P d
  | Seq a b => needs P ic a ∨ needs P ic b
  | Alt a b => needs P ic a ∧ needs P ic b
  | Rep a lo _ => (1 ≤ lo)%nat ∧ needs P ic a
  | Grp a => needs P ic a
  | _ => False
  end.

(** [s] occurs in [t]. *)
Definition part_of (s t : text) : Prop := ∃ a b, t = a ++ s ++ b.

(** [e] is reached from [k] by reading a text of [L]. *)
Definition reads (L : text -> Prop) (k e : cursor) : Prop :=
  ∃ pre, seen e = pre ++ seen k ∧ rest k = rev pre ++ rest e ∧ L (rev pre).

(** Group 1 is as it was, or holds a text of one of the groups of [r]. *)
Definition captured (ic : bool) (r : regex) (k e : cursor) : Prop :=
  group1 e = group1 k ∨ ∃ a g, a ∈ groups r ∧ group1 e = Some g ∧ lang ic a g.

(** *** Sample inputs *)

(** A [strptime] that never parses, and a current time. *)
Definition no_strptime : text -> string -> option datetime := fun _ _ => None.
Definition noon : datetime := Datetime 2024 1 5 12 0 0 0.

Definition invoice_text : text := text_of "Invoice #4521
Starbucks Coffee
TOTAL: $4.50".

Definition total_text : text := text_of "TOTAL: $45.00
...
12.00".

(** Three lines, two of which end with a bare decimal, and the same lines
    with the decimals last. *)
Definition itemized_text : text := text_of "Coffee 3.50
Bagel 2.25
Thank you".
Definition itemized_last_text : text := text_of "Thank you
Coffee 3.50
Bagel 2,25".


Definition priced (a : Z) : receipt := {[ "amount" := VNum (Qc_of_Z a) ]}.
Definition unpriced : receipt := {[ "amount" := VObj (OStr "n/a") ]}.
Definition prices : list receipt := [priced 30; priced 10; priced 20].

(** A category that is [None] and one that is the string "None". *)
Definition uncategorized : list receipt :=
  [{[ "category" := VObj ONone ]}; {[ "category" := VObj (OStr "None") ]}].

Definition on (y m d : Z) (a : Z) : receipt :=
  {[ "transaction_date" := VObj (ODate (Datetime y m d 0 0 0 0));
     "amount" := VNum (Qc_of_Z a) ]}.
Definition undated (a : Z) : receipt :=
  {[ "transaction_date" := VObj ONone; "amount" := VNum (Qc_of_Z a) ]}.

(** A text without a digit. *)
Definition plain_text : text := text_of "Thank you for shopping with us".

(** Parameters for the examples: numbers print as a question mark, and
    lower-casing acts on the letters A to Z. *)
Definition str_num_sample : Qc -> string := fun _ => "?"%string.
Definition lower_ascii (a : Ascii.ascii) : Ascii.ascii :=
  let n := Ascii.N_of_ascii a in
  if ((65 <=? n) && (n <=? 90))%N then Ascii.ascii_of_N (n + 32) else a.
Fixpoint str_lower_sample (s : string) : string :=
  match s with
  | EmptyString => EmptyString
  | String a s' => String (lower_ascii a) (str_lower_sample s')
  end.

Definition sold_by (v : string) : receipt :=
  {[ "vendor" := VObj (OStr v); "amount" := VNum 1 ]}.

(** ** Facts about the matcher *)

Lemma drop_while_nil {A} (p : A -> bool) (l : list A) :
  drop_while p l = [] -> Forall (fun x => p x = true) l.
Proof.
  induction l as [|x l IH]; simpl; [constructor|].
  destruct (p x) eqn:Hx; [|discriminate].
  intros H. constructor; auto.
Qed.

Lemma strip_solid (c : char) (s : text) :
  is_space c = false -> strip (c :: s) ≠ [].
Proof.
  intros Hc Hs. unfold strip, lstrip in Hs. simpl in Hs. rewrite Hc in Hs.
  apply (f_equal (@rev _)) in Hs. rewrite rev_involutive in Hs. simpl in Hs.
  apply drop_while_nil in Hs.
  rewrite Forall_app, Forall_singleton in Hs. destruct Hs as [_ Hs]. congruence.
Qed.

Lemma letter_not_space (c d : char) :
  is_upper c || is_lower c = true ->
  (lower_char c =? lower_char d) = true -> is_space d = false.
Proof.
  unfold lower_char, is_upper, is_lower, is_space. intros Hc Hd.
  apply not_true_is_false. intros Hs.
  destruct ((65 <=? c) && (c <=? 90)) eqn:Uc, ((65 <=? d) && (d <=? 90)) eqn:Ud;
    rewrite ?orb_true_iff, ?andb_true_iff, ?andb_false_iff, ?N.leb_le, ?N.leb_gt,
      ?N.eqb_eq in *; lia.
Qed.

Lemma extends_refl k : extends k k.
Proof. by exists []. Qed.

Lemma extends_trans k1 k2 k3 : extends k1 k2 -> extends k2 k3 -> extends k1 k3.
Proof.
  intros (p1 & H1 & H1') (p2 & H2 & H2'). exists (p2 ++ p1). split.
  - by rewrite H2, H1, (assoc_L (++)).
  - by rewrite H1', H2', rev_app_distr, (assoc_L (++)).
Qed.

Lemma step_extends ok k e : e ∈ step ok k -> extends k e.
Proof.
  unfold step. destruct (rest k) as [|c r] eqn:Hr; [by intros ?%elem_of_nil|].
  destruct (ok c); [|by intros ?%elem_of_nil].
  intros ->%list_elem_of_singleton. by exists [c].
Qed.

Lemma guard_extends b k e : e ∈ guard b k -> extends k e.
Proof.
  unfold guard. destruct b; [|by intros ?%elem_of_nil].
  intros ->%list_elem_of_singleton. apply extends_refl.
Qed.

Lemma rep_extends (f : cursor -> list cursor) :
  (∀ k e, e ∈ f k -> extends k e) ->
  ∀ hi lo k e, e ∈ rep f lo hi k -> extends k e.
Proof.
  intros Hf. induction hi as [|hi IH]; intros lo k e; simpl.
  - apply guard_extends.
  - rewrite elem_of_app, list_elem_of_bind. intros [(k' & He & Hk)|He].
    + eapply extends_trans; eauto.
    + by eapply guard_extends.
Qed.

Lemma run_extends ic r : ∀ k e, e ∈ run ic r k -> extends k e.
Proof.
  induction r as [c|p| | | |a IHa b IHb|a IHa b IHb|a IHa lo hi|a IHa];
    intros k e; simpl.
  - apply step_extends.
  - apply step_extends.
  - apply guard_extends.
  - apply guard_extends.
  - apply guard_extends.
  - rewrite list_elem_of_bind. intros (k' & He & Hk).
    eapply extends_trans; eauto.
  - rewrite elem_of_app. intros [?|?]; eauto.
  - by apply rep_extends.
  - rewrite list_elem_of_fmap. intros (k' & -> & Hk).
    destruct (IHa _ _ Hk) as (pre & ? & ?). by exists pre.
Qed.

(** A match of a solid pattern starts on a character that is not white
    space. *)
Lemma run_solid r : starts_solid r = true ->
  ∀ k e, e ∈ run true r k ->
  ∃ c pre, is_space c = false ∧ seen e = pre ++ c :: seen k.
Proof.
  induction r as [c|p| | | |a IHa b IHb|a IHa b IHb|a IHa lo hi|a IHa];
    simpl; try discriminate; intros Hs k e.
  - unfold step. destruct (rest k) as [|d r]; [by intros ?%elem_of_nil|].
    destruct (chr_ok true c d) eqn:Hd; [|by intros ?%elem_of_nil].
    intros ->%list_elem_of_singleton. exists d, []. split; [|done].
    by eapply letter_not_space.
  - rewrite list_elem_of_bind. intros (k' & He & Hk).
    destruct (IHa Hs _ _ Hk) as (c & pre & Hc & Hpre).
    destruct (run_extends _ _ _ _ He) as (pre' & Hpre' & _).
    exists c, (pre' ++ pre). split; [done|].
    by rewrite Hpre', Hpre, (assoc_L (++)).
  - apply andb_true_iff in Hs as [Ha Hb].
    rewrite elem_of_app. intros [?|?]; eauto.
  - rewrite list_elem_of_fmap. intros (k' & -> & Hk). simpl. eauto.
Qed.

Lemma search_from_sound ic r sn rs k e :
  search_from ic r sn rs = Some (k, e) -> e ∈ run ic r k.
Proof.
  revert sn. induction rs as [|c rs IH]; intros sn; simpl.
  - destruct (run ic r (Cursor sn [] None)) as [|e' l] eqn:Hrun; simpl;
      [discriminate|].
    intros [= <- <-]. rewrite Hrun. left.
  - destruct (run ic r (Cursor sn (c :: rs) None)) as [|e' l] eqn:Hrun; simpl;
      [apply IH|].
    intros [= <- <-]. rewrite Hrun. left.
Qed.

Lemma between_snoc k e c pre :
  seen e = pre ++ c :: seen k -> between k e = c :: rev pre.
Proof.
  intros He. unfold between.
  assert (seen e = (pre ++ [c]) ++ seen k) as -> by by rewrite He, <-(assoc_L (++)).
  rewrite length_app.
  replace (length (pre ++ [c]) + length (seen k) - length (seen k))%nat
    with (length (pre ++ [c])) by lia.
  by rewrite take_app_length, rev_app_distr.
Qed.

Lemma search_solid r t m :
  starts_solid r = true -> search true r t = Some m -> strip m ≠ [].
Proof.
  intros Hs. unfold search.
  destruct (search_from true r [] t) as [[k e]|] eqn:Hsf; [|discriminate].
  intros [= <-]. simpl.
  apply search_from_sound in Hsf.
  destruct (run_solid _ Hs _ _ Hsf) as (c & pre & Hc & Hpre).
  rewrite (between_snoc _ _ _ _ Hpre). by apply strip_solid.
Qed.

Lemma first_some_Some {A B} (f : A -> option B) (l : list A) (y : B) :
  first_some f l = Some y -> ∃ x, x ∈ l ∧ f x = Some y.
Proof.
  induction l as [|x l IH]; simpl; [discriminate|].
  destruct (f x) as [z|] eqn:Hx.
  - intros [= <-]. exists x. split; [left|done].
  - intros (x' & ? & ?)%IH. exists x'. split; [by right|done].
Qed.

Lemma first_some_None {A B} (f : A -> option B) (l : list A) :
  first_some f l = None <-> Forall (fun x => f x = None) l.
Proof.
  induction l as [|x l IH]; simpl.
  - split; [constructor|done].
  - rewrite Forall_cons. destruct (f x); [|tauto].
    split; [discriminate|intros [? _]; discriminate].
Qed.

(** ** The field extractor *)

Lemma vendor_patterns_solid : Forall (fun p => starts_solid p = true) vendor_patterns.
Proof. repeat constructor. Qed.

Lemma vendor_keyword_nonempty t v : vendor_keyword t = Some v -> v ≠ [].
Proof.
  unfold vendor_keyword.
  destruct (first_some _ _) as [m|] eqn:Hm; [|discriminate].
  intros [= <-]. apply first_some_Some in Hm as (p & Hp & Hm).
  eapply search_solid; [|done].
  by apply (proj1 (Forall_forall _ _) vendor_patterns_solid).
Qed.

Lemma vendor_line_ok_line t l : vendor_line t = Some l -> vendor_line_ok l = true.
Proof.
  unfold vendor_line. intros Hl%head_Some_elem_of.
  by apply list_elem_of_filter in Hl as [? _].
Qed.

Lemma vendor_line_length t l : vendor_line t = Some l -> (3 < length l < 30)%nat.
Proof.
  intros Hl%vendor_line_ok_line. unfold vendor_line_ok in Hl.
  apply andb_true_iff in Hl as [_ Hl]. by apply bool_decide_eq_true in Hl.
Qed.

Lemma extract_vendor_nonempty t : extract_vendor t ≠ [].
Proof.
  unfold extract_vendor.
  destruct (vendor_line t) as [l|] eqn:Hl; simpl.
  - apply vendor_line_length in Hl. destruct l; simpl in *; [lia|done].
  - destruct (vendor_keyword t) as [v|] eqn:Hv; simpl; [|done].
    by eapply vendor_keyword_nonempty.
Qed.

Lemma try_amount_pos p t a : try_amount p t = Some a -> (0 < a)%Qc.
Proof.
  unfold try_amount. destruct (last _) as [raw|]; simpl; [|discriminate].
  destruct (float_of _) as [q|]; simpl; [|discriminate].
  case_bool_decide; [|discriminate]. by intros [= <-].
Qed.

Lemma extract_amount_pos t : (0 < extract_amount t)%Qc.
Proof.
  unfold extract_amount.
  destruct (first_some _ _) as [a|] eqn:Ha; [|done].
  apply first_some_Some in Ha as (p & _ & Ha). by eapply try_amount_pos.
Qed.

Lemma extract_date_cases strptime now t :
  extract_date strptime now t = Some now ∨
  ∃ s f, f ∈ date_formats ∧ is_Some (strptime s f) ∧
         extract_date strptime now t = strptime s f.
Proof.
  unfold extract_date. destruct (first_some _ _) as [d|] eqn:Hd; [|by left].
  right. apply first_some_Some in Hd as (p & _ & Hd).
  destruct (search false p t) as [s|]; [|done]. simpl in Hd.
  apply first_some_Some in Hd as (f & Hf & Hd).
  exists s, f. rewrite Hd. by split_and!.
Qed.

Lemma extract_category_fixed t :
  ∃ c, extract_category t = Some c ∧ c ∈ categories.
Proof.
  unfold extract_category, categories.
  repeat match goal with
         | |- context [if ?b then _ else _] => destruct b
         end;
    eexists; (split; [reflexivity|]); set_solver.
Qed.

Lemma extract_category_misc t :
  Forall (fun s => contains (text_of s) (lower t) = false) category_keywords ->
  extract_category t = Some (text_of "Miscellaneous").
Proof.
  unfold category_keywords. rewrite !Forall_cons.
  intros (?&?&?&?&?&?&?&?&?&?&?&?&?&?&?&_).
  unfold extract_category. by repeat match goal with H : contains _ _ = false |- _ => rewrite H; clear H end.
Qed.

(** C1. For every text, [parse_receipt_text] returns a record whose vendor is
    not empty, whose amount is greater than 0, whose date is present (the
    current time, or what [strptime] gave for one of the formats; a valid
    instant when those are) and whose category is one of the six fixed ones;
    and where the keyword scan and the line scan find no vendor, no pattern
    gives an amount, no date parses, or no category keyword occurs, the field
    is "Unknown Vendor", 0.01, the current time and "Miscellaneous"
    respectively. *)
Theorem parse_receipt_text_invariants
    (strptime : text -> string -> option datetime) (now : datetime) (t : text) :
  let r := parse_receipt_text strptime now t in
  vendor r ≠ [] ∧ (0 < amount r)%Qc ∧
  (transaction_date r = Some now ∨
   ∃ s f, f ∈ date_formats ∧ is_Some (strptime s f) ∧
          transaction_date r = strptime s f) ∧
  (∃ c, category r = Some c ∧ c ∈ categories) ∧
  (valid_datetime now ->
   (∀ s f d, strptime s f = Some d -> valid_datetime d) ->
   ∃ d, transaction_date r = Some d ∧ valid_datetime d) ∧
  (vendor_keyword t = None -> vendor_line t = None -> vendor r = unknown_vendor) ∧
  (Forall (fun p => try_amount p t = None) amount_patterns ->
   amount r = sentinel_amount) ∧
  (Forall (fun p => search false p t ≫= try_formats strptime = None) date_patterns ->
   transaction_date r = Some now) ∧
  (Forall (fun s => contains (text_of s) (lower t) = false) category_keywords ->
   category r = Some (text_of "Miscellaneous")).
Proof.
  simpl. split_and!.
  - apply extract_vendor_nonempty.
  - apply extract_amount_pos.
  - apply extract_date_cases.
  - apply extract_category_fixed.
  - intros Hnow Hparse.
    destruct (extract_date_cases strptime now t) as [->|(s & f & _ & [d Hd] & ->)].
    + by exists now.
    + exists d. split; [done|]. by eapply Hparse.
  - intros Hk Hl. unfold extract_vendor. by rewrite Hk, Hl.
  - intros Hp%first_some_None. unfold extract_amount. by rewrite Hp.
  - intros Hp%first_some_None. unfold extract_date. by rewrite Hp.
  - apply extract_category_misc.
Qed.

Lemma parse_receipt_text_invariants_witness :
  let r := parse_receipt_text no_strptime noon [] in
  vendor r = unknown_vendor ∧ amount r = sentinel_amount ∧
  transaction_date r = Some noon ∧ category r = Some (text_of "Miscellaneous") ∧
  ∃ d, transaction_date r = Some d ∧ valid_datetime d.
Proof.
  destruct (parse_receipt_text_invariants no_strptime noon [])
    as (_ & _ & _ & _ & Hvalid & Hv & Ha & Hd & Hc).
  split_and!.
  - apply Hv; reflexivity.
  - apply Ha. repeat constructor.
  - apply Hd. repeat constructor.
  - apply Hc. repeat constructor.
  - apply Hvalid.
    + unfold valid_datetime. repeat split; by vm_compute.
    + intros s f d. discriminate.
Defined.

(** *** Vendor *)

(** What the line scan finds is the vendor, whatever the keyword scan found. *)
Lemma extract_vendor_line t l : vendor_line t = Some l -> extract_vendor t = l.
Proof. intros Hl. unfold extract_vendor. by rewrite Hl. Qed.

(** C2. The specification applies the line scan only when no keyword
    pattern matches; the source runs it after the keyword scan in every case.
    On the text below the keyword scan finds "Starbucks", which the
    specification makes the vendor, and the source returns the first line,
    "Invoice #4521". *)
Theorem vendor_line_overrides_keyword
    (strptime : text -> string -> option datetime) (now : datetime) :
  vendor_keyword invoice_text = Some (text_of "Starbucks") ∧
  vendor_line invoice_text = Some (text_of "Invoice #4521") ∧
  vendor (parse_receipt_text strptime now invoice_text) = text_of "Invoice #4521".
Proof. split_and!; reflexivity. Qed.

(** *** Amount *)

Lemma try_amount_yields p t q : try_amount p t = Some q <-> yields p t q.
Proof.
  unfold try_amount, yields, normalize. split.
  - destruct (last _) as [raw|]; simpl; [|discriminate].
    destruct (float_of _) as [q'|] eqn:Hf; simpl; [|discriminate].
    case_bool_decide; [|discriminate]. intros [= <-]. by exists raw.
  - intros (raw & -> & Hf & Hq). simpl. rewrite Hf. simpl.
    by rewrite bool_decide_eq_true_2.
Qed.

Lemma try_amount_not_yields p t :
  try_amount p t = None <-> ∀ q, ¬ yields p t q.
Proof.
  split.
  - intros Hn q Hy%try_amount_yields. congruence.
  - intros Hn. destruct (try_amount p t) as [q|] eqn:Hq; [|done].
    by apply try_amount_yields, Hn in Hq.
Qed.

Lemma first_some_split {A B} (f : A -> option B) (l : list A) (y : B) :
  first_some f l = Some y ->
  ∃ i x, l !! i = Some x ∧ f x = Some y ∧
         ∀ j x', (j < i)%nat -> l !! j = Some x' -> f x' = None.
Proof.
  induction l as [|x l IH]; simpl; [discriminate|].
  destruct (f x) as [z|] eqn:Hx.
  - intros [= <-]. exists 0%nat, x. split_and!; [done..|]. intros; lia.
  - intros (i & x' & Hi & Hf & Hlt)%IH. exists (S i), x'. split_and!; [done..|].
    intros [|j] x'' Hj; simpl; [by intros [= <-]|].
    apply Hlt. lia.
Qed.

(** The last pattern is anchored by [$] without [re.MULTILINE]: it finds a
    number that ends the text, not one that ends a line inside it. *)
Lemma trailing_decimal_ends_text :
  findall true trailing_decimal (text_of "12.00
paid") = [] ∧
  findall true trailing_decimal (text_of "paid
12.00
") = [text_of "12.00"].
Proof. split; reflexivity. Qed.

(** The patterns are tried in the order keyword-anchored, symbol-prefixed,
    code-suffixed, trailing decimal.  The amount is what the first pattern
    that yields a positive number yields, from the last of its matches with
    commas turned into dots, no pattern before it yielding one; when no
    pattern yields one, the amount is 0.01.  On "TOTAL: $45.00", "...",
    "12.00" the amount is 45, although the trailing decimal pattern alone
    yields 12. *)
Lemma extract_amount_order
    (strptime : text -> string -> option datetime) (now : datetime) (t : text) :
  let a := amount (parse_receipt_text strptime now t) in
  amount_patterns =
    [keyword_anchored; symbol_prefixed; code_suffixed; trailing_decimal] ∧
  ((∃ i p, amount_patterns !! i = Some p ∧ yields p t a ∧
           ∀ j p', (j < i)%nat -> amount_patterns !! j = Some p' ->
                   ∀ q, ¬ yields p' t q)
   ∨ (a = sentinel_amount ∧ ∀ p, p ∈ amount_patterns -> ∀ q, ¬ yields p t q)) ∧
  amount (parse_receipt_text strptime now total_text) = Qc_of_Z 45 ∧
  yields trailing_decimal total_text (Qc_of_Z 12).
Proof.
  simpl. split_and!.
  - reflexivity.
  - unfold extract_amount.
    destruct (first_some _ _) as [a|] eqn:Ha.
    + left. apply first_some_split in Ha as (i & p & Hi & Hp & Hlt).
      exists i, p. split_and!; [done|by apply try_amount_yields|].
      intros j p' Hj Hp'. by apply try_amount_not_yields, (Hlt j).
    + right. split; [done|]. intros p Hp.
      apply try_amount_not_yields.
      by apply (proj1 (Forall_forall _ _) (proj1 (first_some_None _ _) Ha)).
  - apply Qc_is_canon. reflexivity.
  - exists (text_of "12.00"). split_and!; [reflexivity| |reflexivity].
    vm_compute. f_equal. apply Qc_is_canon. reflexivity.
Qed.

(** C3. The specification has the fourth pattern find a bare decimal at the
    end of a line, and so has the comment of the source ("Number at the end
    of a line"); the pattern of the source ends with [$] and is searched
    without [re.MULTILINE], so that it finds a decimal only where the text
    ends.  On the lines "Coffee 3.50", "Bagel 2.25", "Thank you" the fourth
    pattern finds nothing and the amount is 0.01, not the 2.25 that ends
    the second line; with "Thank you" moved to the front the decimal ends
    the text and the amount is 2.25 (written "2,25" there, the comma being
    read as a dot). *)
Theorem bare_decimal_end_of_line_missed
    (strptime : text -> string -> option datetime) (now : datetime) :
  findall true trailing_decimal itemized_text = [] ∧
  amount (parse_receipt_text strptime now itemized_text) = sentinel_amount ∧
  findall true trailing_decimal itemized_last_text = [text_of "2,25"] ∧
  amount (parse_receipt_text strptime now itemized_last_text) = Q2Qc (9 # 4).
Proof.
  split_and!.
  - by vm_compute.
  - apply Qc_is_canon. by vm_compute.
  - by vm_compute.
  - apply Qc_is_canon. by vm_compute.
Qed.

(** *** Numerals with a thousands separator *)

Lemma count_char_cons c x s :
  count_char c (x :: s) = ((if decide (x = c) then 1 else 0) + count_char c s)%nat.
Proof. unfold count_char. rewrite filter_cons. by destruct (decide (x = c)). Qed.

Lemma count_char_app c s1 s2 :
  count_char c (s1 ++ s2) = (count_char c s1 + count_char c s2)%nat.
Proof. unfold count_char. by rewrite filter_app, length_app. Qed.


Lemma normalize_dots raw :
  count_char dot (normalize raw) = (count_char dot raw + count_char comma raw)%nat.
Proof.
  unfold normalize, replace_char. induction raw as [|c raw IH]; [done|].
  rewrite fmap_cons, !count_char_cons, IH. unfold comma, dot in *.
  destruct (N.eqb_spec c 44); repeat case_decide; lia.
Qed.

Lemma digits_no_dot s : forallb is_digit s = true -> count_char dot s = 0%nat.
Proof.
  induction s as [|c s IH]; [done|]. simpl.
  intros [Hc Hs]%andb_true_iff. rewrite count_char_cons, IH by done.
  case_decide; [|done]. subst. discriminate.
Qed.

Lemma span_digits_spec s ip r :
  span_digits s = (ip, r) -> s = ip ++ r ∧ forallb is_digit ip = true.
Proof.
  revert ip r. induction s as [|c s IH]; intros ip r; simpl.
  - by intros [= <- <-].
  - destruct (is_digit c) eqn:Hc; [|by intros [= <- <-]].
    destruct (span_digits s) as [d r'] eqn:Hs. intros [= <- <-].
    destruct (IH _ _ eq_refl) as [-> Hd]. simpl. by rewrite Hc, Hd.
Qed.

(** A numeral that [float_of] reads has at most one dot. *)
Lemma float_of_one_dot s q : float_of s = Some q -> (count_char dot s ≤ 1)%nat.
Proof.
  unfold float_of. destruct (span_digits s) as [ip r] eqn:Hs.
  apply span_digits_spec in Hs as [-> Hip].
  rewrite count_char_app, (digits_no_dot _ Hip).
  destruct r as [|c fp]; [intros _; cbn; lia|].
  destruct (_ && _) eqn:Hc; [|discriminate]. intros _.
  apply andb_true_iff in Hc as [[_ Hfp]%andb_true_iff _].
  rewrite count_char_cons, (digits_no_dot _ Hfp). case_decide; lia.
Qed.

Lemma float_of_separators raw :
  (2 ≤ count_char comma raw + count_char dot raw)%nat -> float_of (normalize raw) = None.
Proof.
  intros Hc. destruct (float_of (normalize raw)) as [q|] eqn:Hq; [|done].
  apply float_of_one_dot in Hq. rewrite normalize_dots in Hq. lia.
Qed.



(** ** Facts about [sorted] *)

Lemma NoDup_fmap_eq {A B} (f : A -> B) (l : list A) x y :
  NoDup (f <$> l) -> x ∈ l -> y ∈ l -> f x = f y -> x = y.
Proof.
  induction l as [|z l IH]; [by intros _ ?%elem_of_nil|].
  rewrite fmap_cons, NoDup_cons, !elem_of_cons.
  intros [Hz Hnd] [->|Hx] [->|Hy] Hf; [done| | |by apply IH].
  - destruct Hz. rewrite Hf. by apply list_elem_of_fmap_2.
  - destruct Hz. rewrite <-Hf. by apply list_elem_of_fmap_2.
Qed.

Section SortFacts.
Context {A K : Type} (key : A -> K) (ltb : K -> K -> bool) `{!StrictTotal ltb}.
Context (lt : A -> A -> result bool).

Local Abbreviation le := (key_le key ltb).
Local Abbreviation isort := (sort_pure key ltb).
Local Abbreviation ins := (insert_pure key ltb).

Lemma ltb_asym a b : ltb a b = true -> ltb b a = false.
Proof.
  intros Hab. destruct (ltb b a) eqn:Hba; [|done].
  by rewrite <-(ltb_irrefl a), <-(ltb_trans a b a Hab Hba).
Qed.

Lemma ltb_le_trans a b c : ltb b a = false -> ltb c b = false -> ltb c a = false.
Proof.
  intros Hab Hbc. destruct (ltb c a) eqn:Hca; [|done].
  destruct (ltb a b) eqn:Hab'.
  - by rewrite (ltb_trans c a b Hca Hab') in Hbc.
  - rewrite (ltb_total a b Hab' Hab) in Hca. congruence.
Qed.

#[local] Instance key_le_trans : Transitive le.
Proof. intros x y z. unfold key_le. apply ltb_le_trans. Qed.

Lemma insert_pure_perm x l : ins x l ≡ₚ x :: l.
Proof.
  induction l as [|y l IH]; simpl; [done|].
  destruct (ltb _ _); [|done]. by rewrite IH, Permutation_swap.
Qed.

Lemma sort_pure_perm l : isort l ≡ₚ l.
Proof.
  induction l as [|x l IH]; simpl; [done|].
  by rewrite insert_pure_perm, IH.
Qed.

Lemma insert_pure_sorted x l :
  StronglySorted le l -> StronglySorted le (ins x l).
Proof.
  induction 1 as [|y l Hl IH Hy]; simpl.
  - repeat constructor.
  - destruct (ltb (key y) (key x)) eqn:Hyx.
    + constructor; [done|]. rewrite insert_pure_perm. constructor; [|done].
      by apply ltb_asym.
    + constructor; [by constructor|]. constructor; [done|].
      eapply Forall_impl; [exact Hy|]. intros z Hz. simpl in Hz.
      by transitivity y.
Qed.

Lemma sort_pure_sorted l : StronglySorted le (isort l).
Proof.
  induction l as [|x l IH]; simpl; [constructor|].
  by apply insert_pure_sorted.
Qed.

(** Stability: the elements of one key keep their order. *)
Lemma insert_pure_stable `{EqDecision K} k x l :
  filter (fun y => key y = k) (ins x l) = filter (fun y => key y = k) (x :: l).
Proof.
  induction l as [|y l IH]; simpl; [done|].
  destruct (ltb (key y) (key x)) eqn:Hyx; [|done].
  rewrite (filter_cons _ y), IH, !(filter_cons _ x), !(filter_cons _ y).
  repeat case_decide; try done.
  exfalso. subst k.
  match goal with H : key _ = key _ |- _ => rewrite H in Hyx end.
  by rewrite ltb_irrefl in Hyx.
Qed.

Lemma sort_pure_stable `{EqDecision K} k l :
  filter (fun y => key y = k) (isort l) = filter (fun y => key y = k) l.
Proof.
  induction l as [|x l IH]; simpl; [done|].
  rewrite insert_pure_stable, !(filter_cons _ x), IH. done.
Qed.

(** With distinct keys the order of the input does not matter. *)
Lemma sort_pure_distinct l1 l2 :
  NoDup (key <$> l1) -> l1 ≡ₚ l2 -> isort l1 = isort l2.
Proof.
  intros Hnd Hp.
  apply (StronglySorted_unique_strong le); [|apply sort_pure_sorted..|].
  - intros x y Hx Hy Hxy Hyx. unfold key_le in *.
    rewrite sort_pure_perm in Hx. rewrite sort_pure_perm, <-Hp in Hy.
    eapply NoDup_fmap_eq; [exact Hnd|done..|].
    by apply ltb_total.
  - by rewrite !sort_pure_perm.
Qed.

(** The monadic sort is the pure one where the comparison does not raise. *)
Lemma insert_agrees x l :
  (∀ y, y ∈ l -> lt y x = Ok (ltb (key y) (key x))) ->
  insert lt x l = Ok (ins x l).
Proof.
  induction l as [|y l IH]; intros Hl; simpl; [done|].
  rewrite (Hl y) by left. simpl.
  destruct (ltb (key y) (key x)); [|done].
  rewrite IH; [done|]. intros z Hz. apply Hl. by right.
Qed.

Lemma sort_agrees l : agrees key ltb lt l -> sort lt l = Ok (isort l).
Proof.
  induction l as [|x l IH]; intros Hl; simpl; [done|].
  rewrite IH.
  - simpl. apply insert_agrees. intros y Hy. rewrite sort_pure_perm in Hy.
    apply Hl; [by right|left].
  - intros y z Hy Hz. apply Hl; by right.
Qed.
End SortFacts.

#[global] Instance num_ltb_strict_total : StrictTotal num_ltb.
Proof.
  unfold num_ltb. split.
  - intros k. apply bool_decide_eq_false. apply (irreflexivity Qclt).
  - intros a b c Hab%bool_decide_eq_true Hbc%bool_decide_eq_true.
    apply bool_decide_eq_true. by eapply Qclt_trans.
  - intros a b Hab%bool_decide_eq_false Hba%bool_decide_eq_false.
    apply Qcle_antisym; by apply Qcnot_lt_le.
Qed.

#[global] Instance str_ltb_strict_total : StrictTotal str_ltb.
Proof.
  unfold str_ltb. split.
  - intros k. destruct (String_as_OT.compare_spec k k) as [?|H|H]; try done;
      by apply (irreflexivity String_as_OT.lt) in H.
  - intros a b c.
    destruct (String_as_OT.compare_spec a b) as [?|Hab|?]; try done.
    destruct (String_as_OT.compare_spec b c) as [?|Hbc|?]; try done.
    intros _ _. pose proof (transitivity Hab Hbc) as Hac.
    unfold String_as_OT.lt in Hac. by rewrite Hac.
  - intros a b.
    destruct (String_as_OT.compare_spec a b) as [?|?|Hba]; try done.
    intros _. unfold String_as_OT.lt in Hba. by rewrite Hba.
Qed.

(** *** [sort_receipts] *)

#[global] Instance key_ltb_strict_total : StrictTotal key_ltb.
Proof.
  split.
  - intros [q|s]; cbn [key_ltb]; apply (ltb_irrefl _).
  - intros [p|s] [q|t] [r|u]; cbn [key_ltb]; try done; apply (ltb_trans _).
  - intros [p|s] [q|t]; cbn [key_ltb]; try done; intros H1 H2; f_equal;
      by eapply (ltb_total _).
Qed.

Lemma key_lt_same_kind a b :
  is_num_key a = is_num_key b -> key_lt a b = Ok (key_ltb a b).
Proof. by destruct a, b. Qed.

Lemma key_lt_Ok a b c : key_lt a b = Ok c -> is_num_key a = is_num_key b.
Proof. by destruct a, b. Qed.

Lemma key_lt_Err a b e : key_lt a b = Err e -> e = TypeError.
Proof. destruct a, b; simpl; congruence. Qed.

Lemma insert_decorate {A K} (key : A -> K) (ltb : K -> K -> bool) x l :
  insert_pure fst ltb (key x, x) ((fun y => (key y, y)) <$> l)
  = (fun y => (key y, y)) <$> insert_pure key ltb x l.
Proof.
  induction l as [|y l IH]; [done|].
  rewrite fmap_cons. cbn [insert_pure fst].
  destruct (ltb (key y) (key x)); [|done]. by rewrite IH.
Qed.

Lemma sort_decorate {A K} (key : A -> K) (ltb : K -> K -> bool) l :
  sort_pure fst ltb ((fun y => (key y, y)) <$> l)
  = (fun y => (key y, y)) <$> sort_pure key ltb l.
Proof.
  unfold sort_pure. induction l as [|x l IH]; [done|].
  rewrite fmap_cons. cbn [foldr]. by rewrite IH, insert_decorate.
Qed.

Lemma rev_reverse {A} (l : list A) : rev l = reverse l.
Proof. unfold reverse. apply rev_alt. Qed.

Lemma one_kind_same ks a b :
  one_kind ks -> a ∈ ks -> b ∈ ks -> is_num_key a = is_num_key b.
Proof.
  intros [H|H] Ha Hb; rewrite Forall_forall in H;
    by rewrite (H a Ha), (H b Hb).
Qed.

Lemma one_kind_reverse ks : one_kind (reverse ks) <-> one_kind ks.
Proof. unfold one_kind. by rewrite !Forall_reverse. Qed.

Lemma decorated_agrees key rs :
  one_kind (key_of key <$> rs) ->
  agrees fst key_ltb decorated_lt (decorate key <$> rs).
Proof.
  intros Hk x y (x' & -> & Hx)%list_elem_of_fmap (y' & -> & Hy)%list_elem_of_fmap.
  unfold decorated_lt. simpl. apply key_lt_same_kind.
  eapply one_kind_same; [exact Hk|by apply list_elem_of_fmap_2..].
Qed.

(** On keys of one kind [sort_receipts] is the stable sort by key. *)
Lemma sort_receipts_asc key rs :
  one_kind (key_of key <$> rs) ->
  sort_receipts rs key false = Ok (sort_pure (key_of key) key_ltb rs).
Proof.
  intros Hk. unfold sort_receipts, sorted.
  rewrite (sort_agrees fst key_ltb) by by apply decorated_agrees.
  simpl. f_equal. unfold decorate. rewrite sort_decorate.
  rewrite <-list_fmap_compose. apply list_fmap_id.
Qed.

Lemma sort_receipts_desc key rs :
  one_kind (key_of key <$> rs) ->
  sort_receipts rs key true = Ok (rev (sort_pure (key_of key) key_ltb (rev rs))).
Proof.
  intros Hk. unfold sort_receipts, sorted.
  assert (sort decorated_lt (rev (decorate key <$> rs))
          = Ok (decorate key <$> sort_pure (key_of key) key_ltb (rev rs))) as ->.
  { rewrite rev_reverse, <-fmap_reverse, <-rev_reverse.
    rewrite (sort_agrees fst key_ltb);
      [unfold decorate; by rewrite sort_decorate|].
    apply decorated_agrees.
    by rewrite rev_reverse, fmap_reverse, one_kind_reverse. }
  simpl. f_equal.
  rewrite !rev_reverse, fmap_reverse, <-list_fmap_compose. f_equal.
  apply list_fmap_id.
Qed.

(** A sort that returns has compared keys of one kind only. *)
Lemma insert_Ok_perm {A} (lt : A -> A -> result bool) x l s :
  insert lt x l = Ok s -> s ≡ₚ x :: l.
Proof.
  revert s. induction l as [|y l IH]; intros s; simpl.
  - by intros [= <-].
  - destruct (lt y x) as [[]|]; simpl; [|by intros [= <-]|done].
    destruct (insert lt x l) as [s'|]; simpl; [|done].
    intros [= <-]. by rewrite (IH s'), Permutation_swap.
Qed.

Lemma sort_Ok_perm {A} (lt : A -> A -> result bool) l s :
  sort lt l = Ok s -> s ≡ₚ l.
Proof.
  revert s. induction l as [|x l IH]; intros s; simpl.
  - by intros [= <-].
  - destruct (sort lt l) as [s'|]; simpl; [|done].
    intros ->%insert_Ok_perm. by rewrite (IH s').
Qed.

Lemma insert_Err x l e : insert decorated_lt x l = Err e -> e = TypeError.
Proof.
  induction l as [|y l IH]; simpl; [done|].
  destruct (decorated_lt y x) as [[]|e'] eqn:Hlt; simpl; [|done|].
  - destruct (insert decorated_lt x l); simpl; [done|].
    intros [= <-]. by apply IH.
  - intros [= <-]. by eapply key_lt_Err.
Qed.

Lemma sort_Err l e : sort decorated_lt l = Err e -> e = TypeError.
Proof.
  induction l as [|x l IH]; simpl; [done|].
  destruct (sort decorated_lt l) as [s|e']; simpl.
  - apply insert_Err.
  - intros [= <-]. by apply IH.
Qed.

Lemma sort_Ok_one_kind l s : sort decorated_lt l = Ok s -> one_kind (fst <$> l).
Proof.
  revert s. induction l as [|x l IH]; intros s; simpl.
  - intros _. left. constructor.
  - destruct (sort decorated_lt l) as [s'|] eqn:Hs; simpl; [|done].
    specialize (IH _ eq_refl). apply sort_Ok_perm in Hs.
    destruct s' as [|y s'].
    { apply Permutation_nil in Hs as ->. intros _.
      destruct (is_num_key x.1) eqn:Hx; [left|right]; by repeat constructor. }
    simpl. destruct (decorated_lt y x) as [b|] eqn:Hlt; simpl; [|done].
    intros _. apply key_lt_Ok in Hlt.
    assert (y.1 ∈ fst <$> l) as Hy.
    { apply list_elem_of_fmap_2. rewrite <-Hs. left. }
    destruct IH as [IH|IH]; [left|right]; constructor; try done;
      rewrite Forall_forall in IH; by rewrite <-Hlt, (IH _ Hy).
Qed.

(** Keys of both kinds: the sort raises. *)
Lemma sort_receipts_mixed key rs reverse :
  ¬ one_kind (key_of key <$> rs) -> sort_receipts rs key reverse = Err TypeError.
Proof.
  intros Hk. unfold sort_receipts, sorted.
  assert (fst <$> (decorate key <$> rs) = key_of key <$> rs) as Hfst.
  { by rewrite <-list_fmap_compose. }
  destruct reverse.
  - destruct (sort decorated_lt (rev _)) as [s|e] eqn:Hs; simpl.
    + apply sort_Ok_one_kind in Hs.
      rewrite rev_reverse, fmap_reverse, one_kind_reverse, Hfst in Hs. done.
    + by rewrite (sort_Err _ _ Hs).
  - destruct (sort decorated_lt _) as [s|e] eqn:Hs; simpl.
    + apply sort_Ok_one_kind in Hs. by rewrite Hfst in Hs.
    + by rewrite (sort_Err _ _ Hs).
Qed.

Lemma key_le_leq ks a b :
  one_kind ks -> a ∈ ks -> b ∈ ks -> key_ltb b a = false -> key_leq a b.
Proof.
  intros Hk Ha Hb. pose proof (one_kind_same _ _ _ Hk Ha Hb) as Hab.
  destruct a as [p|s], b as [q|t]; try done; simpl; intros Hlt.
  - constructor. apply Qcnot_lt_le. by apply bool_decide_eq_false in Hlt.
  - by constructor.
Qed.

Lemma sort_pure_key_leq key rs :
  one_kind (key_of key <$> rs) ->
  StronglySorted (fun x y => key_leq (key_of key x) (key_of key y))
    (sort_pure (key_of key) key_ltb rs).
Proof.
  intros Hk.
  pose proof (sort_pure_sorted (key_of key) key_ltb rs) as Hs.
  pose proof (sort_pure_perm (key_of key) key_ltb rs) as Hp.
  revert Hs Hp. generalize (sort_pure (key_of key) key_ltb rs). intros s Hs Hp.
  assert (∀ x, x ∈ s -> key_of key x ∈ key_of key <$> rs) as Hin.
  { intros x Hx. apply list_elem_of_fmap_2. by rewrite <-Hp. }
  clear Hp. induction Hs as [|x s Hs IH Hx]; [constructor|].
  constructor.
  - apply IH. intros y Hy. apply Hin. by right.
  - rewrite Forall_forall in Hx. apply Forall_forall. intros y Hy.
    eapply key_le_leq; [exact Hk|apply Hin; left|apply Hin; by right|].
    by apply Hx.
Qed.

Lemma StronglySorted_rev {A} (R : relation A) l :
  StronglySorted R l -> StronglySorted (flip R) (rev l).
Proof.
  induction 1 as [|x l Hl IH Hx]; simpl; [constructor|].
  apply StronglySorted_app. split_and!; [|exact IH|repeat constructor].
  intros y z Hy ->%list_elem_of_singleton.
  rewrite Forall_forall in Hx. apply Hx.
  by rewrite rev_reverse, elem_of_reverse in Hy.
Qed.

Lemma key_of_cases key x :
  key_of key x =
    match x !! key with
    | Some (VNum q) => KNum q
    | Some (VObj o) => KStr (str o)
    | None => KStr ""
    end.
Proof. unfold key_of, get. by destruct (x !! key) as [[q|o]|]. Qed.

(** C4, as the source has it.  The key of a record comes from the value of
    that record alone: the number if the value is a number, the string
    representation otherwise, the empty string if the field is missing.  When
    the keys of all records are of one kind the sort returns the records in
    key order: numeric on numbers, lexicographic on strings, reversed with
    [reverse]. *)
Theorem sort_receipts_keys (key : string) (rs : list receipt) (reverse : bool) :
  (∀ x, key_of key x =
          match x !! key with
          | Some (VNum q) => KNum q
          | Some (VObj o) => KStr (str o)
          | None => KStr ""
          end) ∧
  (one_kind (key_of key <$> rs) ->
   ∃ out, sort_receipts rs key reverse = Ok out ∧ out ≡ₚ rs ∧
          StronglySorted (in_order key reverse) out).
Proof.
  split.
  - apply key_of_cases.
  - intros Hk. destruct reverse.
    + eexists. split_and!; [by apply sort_receipts_desc| |].
      * by rewrite rev_reverse, reverse_Permutation, sort_pure_perm,
          rev_reverse, reverse_Permutation.
      * apply (StronglySorted_rev (in_order key false)).
        unfold in_order. apply sort_pure_key_leq.
        by rewrite rev_reverse, fmap_reverse, one_kind_reverse.
    + eexists. split_and!; [by apply sort_receipts_asc| |].
      * apply sort_pure_perm.
      * by apply sort_pure_key_leq.
Qed.

Lemma sort_receipts_keys_witness :
  ∃ out, sort_receipts prices "amount" false = Ok out ∧ out ≡ₚ prices ∧
         StronglySorted (in_order "amount" false) out.
Proof.
  apply (sort_receipts_keys "amount" prices false).
  left. repeat constructor.
Defined.

(** C4 does not hold as the specification states it: with a number in one
    record and a string, or nothing, in another, whichever comes first, the
    sort raises [TypeError]. *)
Lemma sort_receipts_mixed_fails :
  sort_receipts [priced 5; unpriced] "amount" false = Err TypeError ∧
  sort_receipts [unpriced; priced 5] "amount" false = Err TypeError ∧
  sort_receipts [priced 5; ∅] "amount" false = Err TypeError.
Proof. split_and!; reflexivity. Qed.

Lemma call_sort_receipts_new h receipts key reverse rs out :
  h !! receipts = Some rs ->
  sort_receipts rs key reverse = Ok out ->
  ∃ l h', call_sort_receipts h receipts key reverse = Ok (l, h') ∧
          h' !! l = Some out ∧
          ∀ l' v, h !! l' = Some v -> h' !! l' = Some v.
Proof.
  intros Hh Hs. unfold call_sort_receipts. rewrite Hh. simpl. rewrite Hs. simpl.
  eexists _, _. split_and!; [done|by rewrite lookup_insert_eq|].
  intros l' v Hl'. rewrite lookup_insert_ne; [done|].
  intros <-. apply (is_fresh (dom h)). apply elem_of_dom. by eexists.
Qed.

Lemma digit_char_inj a b :
  digit_char a = digit_char b -> (a mod 10 = b mod 10)%Z.
Proof.
  unfold digit_char. intros H.
  apply (f_equal Ascii.N_of_ascii) in H.
  assert (∀ n, (Z.to_N (48 + n mod 10) < 256)%N) as Hlt.
  { intros n. pose proof (Z.mod_pos_bound n 10). lia. }
  rewrite !Ascii.N_ascii_embedding in H by apply Hlt.
  pose proof (Z.mod_pos_bound a 10). pose proof (Z.mod_pos_bound b 10). lia.
Qed.

Ltac digit_eqs :=
  repeat match goal with
         | H : digit_char _ = digit_char _ |- _ => apply digit_char_inj in H
         end.

(** Two instants with the same string representation are the same. *)
Lemma str_datetime_inj d1 d2 :
  valid_datetime d1 -> valid_datetime d2 ->
  str_datetime d1 = str_datetime d2 -> d1 = d2.
Proof.
  destruct d1 as [Y1 M1 D1 h1 m1 s1 u1], d2 as [Y2 M2 D2 h2 m2 s2 u2].
  unfold valid_datetime, str_datetime.
  cbn [year month day hour minute second microsecond].
  intros (HY1 & HM1 & HD1 & Hh1 & Hm1 & Hs1 & Hu1)
         (HY2 & HM2 & HD2 & Hh2 & Hm2 & Hs2 & Hu2) H.
  assert (∀ y m, (days_in_month y m ≤ 31)%Z) as Hdim.
  { intros y m. unfold days_in_month. repeat case_match; lia. }
  pose proof (Hdim Y1 M1) as Hd31. pose proof (Hdim Y2 M2) as Hd31'.
  clear Hdim. injection H; clear H; intros. digit_eqs.
  assert (u1 = u2) as ->.
  { match goal with Ht : String.append _ _ = _ |- _ => rename Ht into Htail end.
    repeat case_bool_decide; try done; [congruence|].
    injection Htail; clear Htail; intros. digit_eqs.
    Z.div_mod_to_equations; lia. }
  f_equal; Z.div_mod_to_equations; lia.
Qed.

(** A field of one type gives keys of one kind, and distinct values give
    distinct keys. *)
Lemma typed_field_keys key rs :
  typed_field key rs ->
  one_kind (key_of key <$> rs) ∧
  (NoDup (field_values key rs) -> NoDup (key_of key <$> rs)).
Proof.
  set (k := fun v : option value =>
              match v with
              | Some (VNum q) => KNum q
              | Some (VObj o) => KStr (str o)
              | None => KStr ""
              end).
  assert (key_of key <$> rs = k <$> field_values key rs) as ->.
  { unfold field_values. rewrite <-list_fmap_compose. apply list_fmap_ext.
    intros _ r _. apply key_of_cases. }
  intros Ht. split.
  - unfold field_values. rewrite <-list_fmap_compose.
    destruct Ht as [Ht|[Ht|Ht]]; [left|right|right];
      apply Forall_fmap; (eapply Forall_impl; [exact Ht|]); simpl.
    + by intros r [q ->].
    + by intros r [s ->].
    + by intros r (d & -> & _).
  - apply NoDup_fmap_2_strong. unfold field_values.
    intros x y (r1 & -> & Hr1)%list_elem_of_fmap (r2 & -> & Hr2)%list_elem_of_fmap.
    destruct Ht as [Ht|[Ht|Ht]]; rewrite Forall_forall in Ht.
    + destruct (Ht _ Hr1) as [q1 ->], (Ht _ Hr2) as [q2 ->]. simpl. congruence.
    + destruct (Ht _ Hr1) as [s1 ->], (Ht _ Hr2) as [s2 ->]. simpl. congruence.
    + destruct (Ht _ Hr1) as (d1 & -> & Hd1), (Ht _ Hr2) as (d2 & -> & Hd2).
      simpl. intros Hd.
      assert (str_datetime d1 = str_datetime d2) as Hs by congruence.
      apply str_datetime_inj in Hs; [by subst|done..].
Qed.

(** C6, as the source has it.  On keys of one kind (as a field of one type
    gives them) the ascending and the descending sort both return; when the
    keys are distinct (as distinct values of one type make them) the
    descending result is the ascending one reversed; in both results the
    records of one key are in the order they have in the input; and a call
    leaves the list it was given as it was, so that the second call sorts
    the same input. *)
Theorem sort_receipts_reverse (key : string) (rs : list receipt) :
  one_kind (key_of key <$> rs) ->
  (typed_field key rs ->
   NoDup (field_values key rs) -> NoDup (key_of key <$> rs)) ∧
  ∃ asc desc,
    sort_receipts rs key false = Ok asc ∧
    sort_receipts rs key true = Ok desc ∧
    (NoDup (key_of key <$> rs) -> desc = rev asc) ∧
    (∀ k, filter (fun x => key_of key x = k) asc
          = filter (fun x => key_of key x = k) rs) ∧
    (∀ k, filter (fun x => key_of key x = k) desc
          = filter (fun x => key_of key x = k) rs) ∧
    (∀ h receipts, h !! receipts = Some rs ->
       ∃ l1 h1 l2 h2,
         call_sort_receipts h receipts key false = Ok (l1, h1) ∧
         h1 !! l1 = Some asc ∧ h1 !! receipts = Some rs ∧
         call_sort_receipts h1 receipts key true = Ok (l2, h2) ∧
         h2 !! l2 = Some desc ∧ h2 !! receipts = Some rs ∧ h2 !! l1 = Some asc).
Proof.
  intros Hk. split; [intros Ht; by apply typed_field_keys|].
  pose proof (sort_receipts_asc key rs Hk) as Hasc.
  pose proof (sort_receipts_desc key rs Hk) as Hdesc.
  eexists _, _. split_and!; [exact Hasc|exact Hdesc|..].
  - intros Hnd. f_equal. apply sort_pure_distinct; [apply _| |].
    + by rewrite rev_reverse, fmap_reverse, reverse_Permutation.
    + by rewrite rev_reverse, reverse_Permutation.
  - intros k. apply sort_pure_stable, _.
  - intros k. rewrite rev_reverse, filter_reverse, sort_pure_stable by apply _.
    by rewrite rev_reverse, filter_reverse, reverse_involutive.
  - intros h receipts Hh.
    destruct (call_sort_receipts_new _ _ _ _ _ _ Hh Hasc) as (l1 & h1 & H1 & Hl1 & Hh1).
    pose proof (Hh1 _ _ Hh) as Hh'.
    destruct (call_sort_receipts_new _ _ _ _ _ _ Hh' Hdesc) as (l2 & h2 & H2 & Hl2 & Hh2).
    exists l1, h1, l2, h2. split_and!; auto.
Qed.

Lemma sort_receipts_reverse_witness :
  ∃ asc desc,
    sort_receipts prices "amount" false = Ok asc ∧
    sort_receipts prices "amount" true = Ok desc ∧ desc = rev asc.
Proof.
  assert (typed_field "amount" prices) as Ht.
  { left. repeat constructor; by eexists. }
  destruct (sort_receipts_reverse "amount" prices)
    as (Hd & asc & desc & Ha & Hdesc & Hr & _).
  { by apply typed_field_keys. }
  exists asc, desc. split_and!; [done..|].
  apply Hr, Hd; [done|]. apply (bool_decide_unpack _). vm_compute. exact I.
Defined.

(** C6 does not hold as the specification states it, for distinct values:
    [None] and the string "None" are distinct values with the one key
    "None", and the two sorts return them in the same order, not in reversed
    orders; a number and a missing value are distinct, and both sorts raise
    [TypeError]. *)
Lemma sort_receipts_reverse_fails :
  (NoDup (field_values "category" uncategorized) ∧
   sort_receipts uncategorized "category" false = Ok uncategorized ∧
   sort_receipts uncategorized "category" true = Ok uncategorized ∧
   uncategorized ≠ rev uncategorized) ∧
  (NoDup (field_values "amount" [priced 5; ∅]) ∧
   sort_receipts [priced 5; ∅] "amount" false = Err TypeError ∧
   sort_receipts [priced 5; ∅] "amount" true = Err TypeError).
Proof.
  split; split_and!; try reflexivity.
  - apply (bool_decide_unpack _). vm_compute. exact I.
  - intros H. apply (f_equal (fun l => head l ≫= (.!! "category"))) in H.
    vm_compute in H. discriminate H.
  - apply (bool_decide_unpack _). vm_compute. exact I.
Qed.

(** ** Facts about counters *)

Section CounterFacts.
Context {K V : Type} `{EqDecision K} (plus : V -> V -> V) (zero : V).

Local Abbreviation add := (counter_add plus zero).
Local Abbreviation at_ := (value_at zero).

Lemma value_at_add (k : K) (v : V) (c : list (K * V)) (k' : K) :
  at_ (add k v c) k' = if decide (k' = k) then plus (at_ c k) v else at_ c k'.
Proof.
  induction c as [|[k0 n] c IH]; simpl.
  - by repeat case_decide.
  - destruct (decide (k = k0)) as [->|Hk]; simpl.
    + by repeat case_decide; simplify_eq.
    + rewrite IH. by repeat case_decide; simplify_eq.
Qed.

Lemma keys_add (k : K) (v : V) (c : list (K * V)) :
  (add k v c).*1 = if decide (k ∈ c.*1) then c.*1 else c.*1 ++ [k].
Proof.
  induction c as [|[k0 n] c IH]; [done|]. cbn [counter_add].
  destruct (decide (k = k0)) as [->|Hk]; rewrite !fmap_cons; cbn [fst].
  - rewrite decide_True; [done|left].
  - rewrite IH. destruct (decide (k ∈ c.*1)) as [Hin|Hin].
    + rewrite decide_True; [done|by right].
    + rewrite decide_False; [done|]. by intros [?|?]%elem_of_cons.
Qed.

Lemma NoDup_keys_add (k : K) (v : V) (c : list (K * V)) : NoDup c.*1 -> NoDup (add k v c).*1.
Proof.
  intros Hc. rewrite keys_add. case_decide; [done|].
  apply NoDup_app. split_and!; [done| |apply NoDup_singleton].
  by intros k' Hk' ->%list_elem_of_singleton.
Qed.

Lemma elem_of_value_at (c : list (K * V)) (k : K) (v : V) :
  NoDup c.*1 -> (k, v) ∈ c <-> k ∈ c.*1 ∧ v = at_ c k.
Proof.
  induction c as [|[k0 n] c IH]; simpl.
  - intros _. rewrite !elem_of_nil. tauto.
  - rewrite NoDup_cons. intros [Hk0 Hc].
    rewrite !elem_of_cons, (IH Hc). case_decide as Hk.
    + subst k0. split.
      * intros [[= ->]|[? _]]; [by split; [left|]|done].
      * intros [_ ->]. by left.
    + split.
      * intros [[= ? ?]|[? ?]]; [done|]. split; [by right|done].
      * intros [[?|?] ?]; [done|]. by right.
Qed.
End CounterFacts.

Section CounterCount.
Context {K : Type} `{EqDecision K}.

Local Abbreviation incr := (fun c (k : K) => counter_add Nat.add 0%nat k 1%nat c).

Lemma occurrences_cons (k x : K) l :
  occurrences k (x :: l) = ((if decide (x = k) then 1 else 0) + occurrences k l)%nat.
Proof. unfold occurrences. rewrite filter_cons. by case_decide. Qed.

Lemma occurrences_pos (k : K) l : k ∈ l <-> (0 < occurrences k l)%nat.
Proof.
  induction l as [|x l IH]; [by rewrite elem_of_nil; cbn; lia|].
  rewrite elem_of_cons, occurrences_cons, IH.
  case_decide as Hx; [subst x|]; (split; [intros [?|?]|intros ?]);
    auto with lia; congruence.
Qed.

Lemma foldl_incr_value (l : list K) (c : list (K * nat)) (k : K) :
  value_at 0%nat (foldl incr c l) k = (value_at 0%nat c k + occurrences k l)%nat.
Proof.
  revert c. induction l as [|x l IH]; intros c; simpl; [cbn; lia|].
  rewrite IH, value_at_add, occurrences_cons.
  repeat case_decide; simplify_eq; lia.
Qed.

Lemma foldl_incr_keys (l : list K) (c : list (K * nat)) (k : K) :
  k ∈ (foldl incr c l).*1 <-> k ∈ c.*1 ∨ k ∈ l.
Proof.
  revert c. induction l as [|x l IH]; intros c; simpl.
  - rewrite elem_of_nil. tauto.
  - rewrite IH, keys_add, elem_of_cons. case_decide.
    + split; [tauto|]. intros [?|[->|?]]; tauto.
    + rewrite elem_of_app, list_elem_of_singleton. tauto.
Qed.

Lemma foldl_incr_NoDup (l : list K) (c : list (K * nat)) : NoDup c.*1 -> NoDup (foldl incr c l).*1.
Proof.
  revert c. induction l as [|x l IH]; intros c Hc; simpl; [done|].
  by apply IH, NoDup_keys_add.
Qed.

Lemma Counter_NoDup (l : list K) : NoDup (Counter l).*1.
Proof. apply foldl_incr_NoDup. constructor. Qed.

(** The counter holds each element of the list with the number of its
    occurrences. *)
Lemma elem_of_Counter (l : list K) k n :
  (k, n) ∈ Counter l <-> k ∈ l ∧ n = occurrences k l.
Proof.
  rewrite (elem_of_value_at Nat.add 0%nat) by apply Counter_NoDup.
  unfold Counter. rewrite foldl_incr_keys, foldl_incr_value. simpl.
  rewrite elem_of_nil. split; [intros [[[]|?] ->]|intros [? ->]]; auto.
Qed.
End CounterCount.

Lemma max_value_ge {K} (c : list (K * nat)) k n :
  (k, n) ∈ c -> (n ≤ max_value c)%nat.
Proof.
  unfold max_value. induction c as [|[k0 n0] c IH]; [by intros ?%elem_of_nil|].
  rewrite elem_of_cons, fmap_cons. cbn [foldr snd].
  intros [[= -> ->]|Hin]; [apply Nat.le_max_l|].
  etrans; [by apply IH|apply Nat.le_max_r].
Qed.

Lemma max_value_elem {K} (c : list (K * nat)) :
  c ≠ [] -> ∃ k, (k, max_value c) ∈ c.
Proof.
  unfold max_value. induction c as [|[k0 n0] c IH]; [done|]. intros _.
  rewrite fmap_cons. cbn [foldr snd].
  destruct c as [|kn c].
  - exists k0. cbn. rewrite Nat.max_0_r. left.
  - destruct IH as [k Hk]; [done|].
    destruct (Nat.max_spec n0 (foldr Nat.max 0%nat ((kn :: c).*2))) as [[_ ->]|[_ ->]].
    + exists k. by right.
    + exists k0. left.
Qed.

(** ** [calculate_aggregates] *)

Lemma numbers_of_amounts rs :
  numeric_amounts rs ->
  numbers_of ((fun r => get r "amount" (VNum 0)) <$> rs) = Ok (amounts_of rs).
Proof.
  induction 1 as [|r rs Hr _ IH]; [done|].
  rewrite fmap_cons. cbn [numbers_of]. rewrite IH.
  unfold amounts_of. rewrite fmap_cons.
  by destruct (get r "amount" (VNum 0)).
Qed.

Lemma calculate_aggregates_Ok rs m :
  rs ≠ [] -> numeric_amounts rs -> median_of (amounts_of rs) = Ok m ->
  ∃ agg, calculate_aggregates rs = Ok agg ∧
         median_spend agg = m ∧ mode_spend agg = mode_of (amounts_of rs) ∧
         total_spend agg = sum (amounts_of rs).
Proof.
  intros Hne Hnum Hm. destruct rs as [|r rs]; [done|].
  unfold calculate_aggregates. rewrite (numbers_of_amounts _ Hnum).
  cbn [mbind result_bind]. rewrite Hm. cbn [mbind result_bind].
  eexists. split; [done|]. by split_and!.
Qed.

Lemma StronglySorted_weaken {A} (R1 R2 : relation A) l :
  (∀ x y, R1 x y -> R2 x y) -> StronglySorted R1 l -> StronglySorted R2 l.
Proof.
  intros HR. induction 1 as [|x l Hl IH Hx]; constructor; [done|].
  eapply Forall_impl; [exact Hx|]. intros y. apply HR.
Qed.

Lemma sorted_amounts_spec amounts :
  sorted num_lt amounts false = Ok (sort_pure id num_ltb amounts) ∧
  sort_pure id num_ltb amounts ≡ₚ amounts ∧
  StronglySorted Qcle (sort_pure id num_ltb amounts).
Proof.
  split_and!.
  - unfold sorted. by apply (sort_agrees id num_ltb).
  - apply sort_pure_perm.
  - eapply StronglySorted_weaken; [|apply (sort_pure_sorted id num_ltb)].
    intros x y Hxy. unfold key_le, num_ltb in Hxy. simpl in Hxy.
    apply bool_decide_eq_false in Hxy. by apply Qcnot_lt_le.
Qed.

Lemma median_of_spec amounts :
  amounts ≠ [] ->
  ∃ m, median_of amounts = Ok m ∧ is_median (sort_pure id num_ltb amounts) m.
Proof.
  intros Hne. destruct (sorted_amounts_spec amounts) as (Hs & Hp & _).
  unfold median_of. rewrite Hs. cbn [mbind result_bind].
  generalize dependent (sort_pure id num_ltb amounts). intros s _ Hp.
  assert (0 < length s)%nat as Hlen.
  { rewrite Hp. destruct amounts; [done|simpl; lia]. }
  assert (length s / 2 < length s)%nat as Hhi by (apply Nat.div_lt; lia).
  destruct (lookup_lt_is_Some_2 s _ Hhi) as [hi Hhi'].
  unfold is_median, item. case_bool_decide as Hmod.
  - assert (length s / 2 - 1 < length s)%nat as Hlo by lia.
    destruct (lookup_lt_is_Some_2 s _ Hlo) as [lo Hlo'].
    rewrite Hlo', Hhi'. cbn [mbind result_bind].
    eexists. split; [done|]. split; [lia|]. intros _. by exists lo, hi.
  - rewrite Hhi'. eexists. split; [done|]. split; [done|]. intros ?. lia.
Qed.

(** C7. For a list of receipts that is not empty (the amounts being
    numbers), [median_spend] is taken from the amounts sorted in ascending
    order: the middle one when their count is odd, the mean of the two middle
    ones when it is even.  The median of 10, 20, 30 is 20 and that of 10, 20,
    30, 40 is 25. *)
Theorem median_spend_middle :
  (∀ rs, rs ≠ [] -> numeric_amounts rs ->
     ∃ agg s, calculate_aggregates rs = Ok agg ∧
              s ≡ₚ amounts_of rs ∧ StronglySorted Qcle s ∧
              is_median s (median_spend agg)) ∧
  median_spend <$> calculate_aggregates (priced <$> [10; 20; 30]%Z) = Ok (Qc_of_Z 20) ∧
  median_spend <$> calculate_aggregates (priced <$> [10; 20; 30; 40]%Z) = Ok (Qc_of_Z 25).
Proof.
  split_and!.
  - intros rs Hne Hnum.
    destruct (median_of_spec (amounts_of rs)) as (m & Hm & Hmed).
    { destruct rs; [done|]. unfold amounts_of. by rewrite fmap_cons. }
    destruct (calculate_aggregates_Ok rs m Hne Hnum Hm) as (agg & Hagg & <- & _).
    destruct (sorted_amounts_spec (amounts_of rs)) as (_ & Hp & Hs).
    by exists agg, (sort_pure id num_ltb (amounts_of rs)).
  - vm_compute. f_equal; by apply Qc_is_canon.
  - vm_compute. f_equal; by apply Qc_is_canon.
Qed.

Lemma median_spend_middle_witness :
  ∃ agg s, calculate_aggregates prices = Ok agg ∧
           s ≡ₚ amounts_of prices ∧ StronglySorted Qcle s ∧
           is_median s (median_spend agg).
Proof.
  apply (proj1 median_spend_middle); [done|]. repeat constructor.
Defined.

Lemma occurrences_le_max (amounts : list Qc) b :
  (occurrences b amounts ≤ max_value (Counter amounts))%nat.
Proof.
  destruct (decide (b ∈ amounts)) as [Hb|Hb].
  - apply (max_value_ge _ b). by apply elem_of_Counter.
  - rewrite occurrences_pos in Hb. lia.
Qed.

Lemma elem_of_mode_of (amounts : list Qc) a :
  a ∈ mode_of amounts <->
  a ∈ amounts ∧ ∀ b, (occurrences b amounts ≤ occurrences a amounts)%nat.
Proof.
  unfold mode_of. case_bool_decide as Hc.
  - rewrite Hc. simpl. rewrite elem_of_nil. split; [done|]. intros [Ha _].
    assert ((a, occurrences a amounts) ∈ Counter amounts) as Hin
      by by apply elem_of_Counter.
    rewrite Hc in Hin. by apply elem_of_nil in Hin.
  - rewrite list_elem_of_fmap. split.
    + intros ([a' n] & -> & [Hn Hin]%list_elem_of_filter). simpl in *.
      apply elem_of_Counter in Hin as [Ha ->]. split; [done|].
      intros b. rewrite Hn. apply occurrences_le_max.
    + intros [Ha Hmax]. exists (a, occurrences a amounts). split; [done|].
      apply list_elem_of_filter. split; [|by apply elem_of_Counter]. simpl.
      destruct (max_value_elem _ Hc) as [k Hk].
      apply elem_of_Counter in Hk as [_ Hk].
      pose proof (Hmax k). pose proof (occurrences_le_max amounts a). lia.
Qed.

Lemma mode_of_NoDup (amounts : list Qc) : NoDup (mode_of amounts).
Proof.
  unfold mode_of. eapply sublist_NoDup; [apply (Counter_NoDup amounts)|].
  apply fmap_sublist, sublist_filter.
Qed.

(** C8. For a list of receipts that is not empty (the amounts being
    numbers), [mode_spend] holds, once each, exactly the amounts that occur
    at least as often as every other amount.  The mode of 5, 5, 10 is 5 alone
    and that of 5, 5, 10, 10 is 5 and 10. *)
Theorem mode_spend_all_ties :
  (∀ rs, rs ≠ [] -> numeric_amounts rs ->
     ∃ agg, calculate_aggregates rs = Ok agg ∧ NoDup (mode_spend agg) ∧
            ∀ a, a ∈ mode_spend agg <->
                 a ∈ amounts_of rs ∧
                 ∀ b, (occurrences b (amounts_of rs) ≤ occurrences a (amounts_of rs))%nat) ∧
  mode_spend <$> calculate_aggregates (priced <$> [5; 5; 10]%Z) = Ok [Qc_of_Z 5] ∧
  mode_spend <$> calculate_aggregates (priced <$> [5; 5; 10; 10]%Z)
    = Ok [Qc_of_Z 5; Qc_of_Z 10].
Proof.
  split_and!.
  - intros rs Hne Hnum.
    destruct (median_of_spec (amounts_of rs)) as (m & Hm & _).
    { destruct rs; [done|]. unfold amounts_of. by rewrite fmap_cons. }
    destruct (calculate_aggregates_Ok rs m Hne Hnum Hm) as (agg & Hagg & _ & Hmode & _).
    exists agg. rewrite Hmode. split_and!; [done|apply mode_of_NoDup|].
    apply elem_of_mode_of.
  - vm_compute. repeat f_equal; by apply Qc_is_canon.
  - vm_compute. repeat f_equal; by apply Qc_is_canon.
Qed.

Lemma mode_spend_all_ties_witness :
  ∃ agg, calculate_aggregates prices = Ok agg ∧ NoDup (mode_spend agg) ∧
         ∀ a, a ∈ mode_spend agg <->
              a ∈ amounts_of prices ∧
              ∀ b, (occurrences b (amounts_of prices) ≤ occurrences a (amounts_of prices))%nat.
Proof.
  apply (proj1 mode_spend_all_ties); [done|]. repeat constructor.
Defined.

(** ** [time_series_aggregation] *)

Section CounterSum.
Context {K V : Type} `{EqDecision K} (plus : V -> V -> V) (zero : V).

Local Abbreviation file := (fun c (e : K * V) => counter_add plus zero e.1 e.2 c).

Lemma foldl_add_value (es : list (K * V)) (c : list (K * V)) (k : K) :
  value_at zero (foldl file c es) k
  = foldl plus (value_at zero c k) (snd <$> filter (fun e => e.1 = k) es).
Proof.
  revert c. induction es as [|[k' v] es IH]; intros c; [done|].
  cbn [foldl]. rewrite IH, value_at_add, filter_cons. cbn [fst snd].
  destruct (decide (k' = k)) as [->|Hk].
  - by rewrite decide_True.
  - by rewrite decide_False by done.
Qed.

Lemma foldl_add_keys (es : list (K * V)) (c : list (K * V)) (k : K) :
  k ∈ (foldl file c es).*1 <-> k ∈ c.*1 ∨ k ∈ es.*1.
Proof.
  revert c. induction es as [|[k' v] es IH]; intros c.
  - cbn. rewrite elem_of_nil. tauto.
  - cbn [foldl]. rewrite IH, keys_add, fmap_cons, elem_of_cons. cbn [fst snd].
    case_decide as Hk'.
    + split; [tauto|]. intros [?|[->|?]]; tauto.
    + rewrite elem_of_app, list_elem_of_singleton. tauto.
Qed.

Lemma foldl_add_NoDup (es : list (K * V)) (c : list (K * V)) :
  NoDup c.*1 -> NoDup (foldl file c es).*1.
Proof.
  revert c. induction es as [|e es IH]; intros c Hc; [done|].
  cbn [foldl]. by apply IH, NoDup_keys_add.
Qed.
End CounterSum.

Lemma time_series_loop_entries period rs c :
  period = "month" ∨ period = "year" -> dated_numeric rs ->
  time_series_loop period c rs
  = Ok (foldl (fun c e => counter_add Qcplus 0%Qc e.1 e.2 c) c (entries period rs)).
Proof.
  intros Hp Hrs. revert c. induction Hrs as [|r rs Hr _ IH]; intros c; [done|].
  cbn [time_series_loop]. unfold time_series_step, entries.
  cbn [omap list_omap]. unfold entry at 1.
  destruct (get r "transaction_date" (VObj ONone)) as [q|[|s|d]];
    cbn [mbind result_bind]; try apply IH.
  simpl in Hr. destruct (get r "amount" (VNum 0)) as [q|o]; [|done].
  assert ((if decide (period = "month") then Ok (strftime_month d)
           else if decide (period = "year") then Ok (strftime_year d)
           else Err ValueError) = Ok (label period d)) as ->.
  { unfold label. destruct Hp as [-> | ->]; by repeat case_decide. }
  cbn [mbind result_bind number_of]. by rewrite IH.
Qed.

Lemma sorted_strict {A K} (key : A -> K) (ltb : K -> K -> bool)
    `{!StrictTotal ltb} (s : list A) :
  StronglySorted (key_le key ltb) s -> NoDup (key <$> s) ->
  StronglySorted (fun x y => ltb (key x) (key y) = true) s.
Proof.
  induction 1 as [|x s Hs IH Hx]; [constructor|].
  rewrite fmap_cons, NoDup_cons. intros [Hnx Hnd]. constructor; [by apply IH|].
  rewrite Forall_forall in Hx. apply Forall_forall. intros y Hy.
  destruct (ltb (key x) (key y)) eqn:Hlt; [done|].
  destruct Hnx. rewrite (ltb_total (key x) (key y) Hlt (Hx y Hy)).
  by apply list_elem_of_fmap_2.
Qed.

Lemma length_append (s1 s2 : string) :
  String.length (s1 ++ s2)%string = (String.length s1 + String.length s2)%nat.
Proof. induction s1 as [|a s1 IH]; [done|]. simpl. by rewrite IH. Qed.

Lemma length_zero_padded w n : String.length (zero_padded w n) = w.
Proof.
  revert n. induction w as [|w IH]; intros n; [done|].
  cbn [zero_padded]. rewrite length_append, IH. simpl. lia.
Qed.

(** For the periods "month" and "year" (the amounts of the receipts that
    have a date being numbers), the result holds one item for each label
    under which a receipt with a date falls, with the sum of the amounts of
    these receipts, the items in strictly ascending order of their labels as
    strings. *)
Lemma time_series_items rs period :
  period = "month" ∨ period = "year" -> dated_numeric rs ->
  ∃ out, time_series_aggregation rs period = Ok out ∧
         StronglySorted (fun a b => str_ltb a.1 b.1 = true) out ∧
         ∀ k v, (k, v) ∈ out <->
                k ∈ (entries period rs).*1 ∧ v = bucket k (entries period rs).
Proof.
  intros Hp Hrs. unfold time_series_aggregation.
  rewrite (time_series_loop_entries _ _ _ Hp Hrs). cbn [mbind result_bind].
  set (data := foldl _ [] (entries period rs)).
  assert (NoDup data.*1) as Hnd by (apply foldl_add_NoDup; constructor).
  unfold sorted. rewrite (sort_agrees fst str_ltb) by done.
  pose proof (sort_pure_perm fst str_ltb data) as Hperm.
  eexists. split_and!; [done| |].
  - apply (sorted_strict fst str_ltb); [apply sort_pure_sorted, _|].
    by rewrite Hperm.
  - intros k v. rewrite Hperm.
    rewrite (elem_of_value_at Qcplus 0%Qc) by done.
    unfold data. rewrite foldl_add_keys, foldl_add_value. cbn [fmap list_fmap].
    rewrite elem_of_nil. unfold bucket, sum. cbn [value_at]. tauto.
Qed.

(** C9. The specification has the labels zero-padded, YYYY-MM and YYYY, and
    so has the docstring of the source ("period (e.g., 'YYYY-MM') as key");
    the source formats them with [strftime], which does not pad the year.
    A receipt of 100 dated 0999-12-05 is filed under "999-12" for the months
    and under "999" for the years, not under "0999-12" and "0999"; and
    since the order of the result is that of the labels as strings, a
    receipt of January 1000 comes before one of December 999.  The two
    receipts of 100 dated 2024-01-05 and 2024-01-20 give "2024-01" with
    200. *)
Theorem time_series_year_unpadded :
  time_series_aggregation [on 999 12 5 100] "month" = Ok [("999-12", Qc_of_Z 100)] ∧
  time_series_aggregation [on 999 12 5 100] "year" = Ok [("999", Qc_of_Z 100)] ∧
  time_series_aggregation [on 999 12 5 1; on 1000 1 1 2] "month"
    = Ok [("1000-01", Qc_of_Z 2); ("999-12", Qc_of_Z 1)] ∧
  time_series_aggregation [on 2024 1 5 100; on 2024 1 20 100] "month"
    = Ok [("2024-01", Qc_of_Z 200)].
Proof.
  split_and!; vm_compute;
    repeat match goal with
           | |- @eq Qc _ _ => by apply Qc_is_canon
           | _ => progress f_equal
           end.
Qed.

(** No receipt with a date: the period is not looked at. *)
Lemma time_series_loop_undated period rs c :
  Forall (fun r => is_date (get r "transaction_date" (VObj ONone)) = false) rs ->
  time_series_loop period c rs = Ok c.
Proof.
  induction 1 as [|r rs Hr _ IH]; [done|].
  cbn [time_series_loop]. unfold time_series_step.
  destruct (get r "transaction_date" (VObj ONone)) as [q|[|s|d]]; try done.
Qed.

(** C5. The specification has every period other than "month" and "year"
    rejected, whatever the receipts; the source checks the period only when
    it comes to a receipt that has a date.  With the period "week" it returns
    the empty result on the empty list and on a list where no receipt has a
    date, and raises [ValueError] once a receipt has one. *)
Theorem time_series_period_unchecked :
  time_series_aggregation [] "week" = Ok [] ∧
  time_series_aggregation [undated 7; ∅] "week" = Ok [] ∧
  time_series_aggregation [undated 7; on 2024 1 5 100] "week" = Err ValueError.
Proof. split_and!; reflexivity. Qed.

(** * Further properties of the code *)

(** ** [calculate_aggregates], all fields *)

Lemma calculate_aggregates_numeric rs :
  rs ≠ [] -> numeric_amounts rs ->
  ∃ m, median_of (amounts_of rs) = Ok m ∧
       calculate_aggregates rs
       = Ok (Aggregates (sum (amounts_of rs))
               (sum (amounts_of rs) / Qc_of_Z (Z.of_nat (length rs)))
               m (mode_of (amounts_of rs))
               (Counter (vendors_of rs)) (Counter (categories_of rs))).
Proof.
  intros Hne Hnum.
  destruct (median_of_spec (amounts_of rs)) as (m & Hm & _).
  { destruct rs; [done|]. done. }
  exists m. split; [done|]. destruct rs as [|r rs]; [done|].
  unfold calculate_aggregates. rewrite (numbers_of_amounts _ Hnum).
  cbn [mbind result_bind]. rewrite Hm. cbn [mbind result_bind].
  unfold amounts_of at 3. by rewrite length_fmap.
Qed.

Lemma numbers_of_not_numeric rs :
  ¬ numeric_amounts rs ->
  numbers_of ((fun r => get r "amount" (VNum 0)) <$> rs) = Err TypeError.
Proof.
  induction rs as [|r rs IH]; intros Hn.
  - destruct Hn. constructor.
  - rewrite fmap_cons. cbn [numbers_of].
    destruct (get r "amount" (VNum 0)) as [q|o] eqn:Hr; [|done].
    cbn [number_of mbind result_bind]. rewrite IH; [done|].
    intros Hrs. apply Hn. constructor; [|done]. by rewrite Hr.
Qed.

Lemma calculate_aggregates_returns rs :
  numeric_amounts rs -> ∃ agg, calculate_aggregates rs = Ok agg.
Proof.
  intros Hnum. destruct (decide (rs = [])) as [-> | Hne]; [by eexists|].
  destruct (calculate_aggregates_numeric rs Hne Hnum) as (m & _ & ->).
  by eexists.
Qed.

(** X1. [calculate_aggregates] returns for the empty list (all zeros and
    empty tables) and for every list in which each amount is a number or is
    missing; on any other list it raises [TypeError], and it raises nothing
    else. *)
Theorem calculate_aggregates_errors (rs : list receipt) :
  calculate_aggregates [] = Ok (Aggregates 0 0 0 [] [] []) ∧
  (numeric_amounts rs <-> ∃ agg, calculate_aggregates rs = Ok agg) ∧
  (¬ numeric_amounts rs <-> calculate_aggregates rs = Err TypeError).
Proof.
  split; [done|].
  destruct (decide (numeric_amounts rs)) as [Hnum|Hnum].
  - destruct (calculate_aggregates_returns rs Hnum) as [agg Hagg].
    split; [by split; eauto|]. rewrite Hagg. split; [done|]. discriminate.
  - assert (calculate_aggregates rs = Err TypeError) as Herr.
    { destruct rs as [|r rs]; [destruct Hnum; constructor|].
      unfold calculate_aggregates. by rewrite (numbers_of_not_numeric _ Hnum). }
    rewrite Herr. split; [|done]. split; [done|]. by intros [agg ?].
Qed.

(** ** Frequency tables *)

Lemma counter_incr_total {K} `{EqDecision K} (k : K) (c : list (K * nat)) :
  sum_list (counter_add Nat.add 0%nat k 1%nat c).*2 = S (sum_list c.*2).
Proof.
  induction c as [|[k' n] c IH]; [done|]. cbn [counter_add].
  case_decide; rewrite !fmap_cons; cbn [snd sum_list].
  - unfold id. lia.
  - rewrite IH. unfold id. lia.
Qed.

Lemma Counter_total {K} `{EqDecision K} (l : list K) :
  sum_list (Counter l).*2 = length l.
Proof.
  unfold Counter.
  enough (∀ c, sum_list (foldl (fun c k => counter_add Nat.add 0%nat k 1%nat c) c l).*2
               = (sum_list c.*2 + length l)%nat) as Hc by apply (Hc []).
  induction l as [|k l IH]; intros c; cbn [foldl length]; [lia|].
  rewrite IH, counter_incr_total. lia.
Qed.

Lemma occurrences_Permutation {K} `{EqDecision K} (k : K) l1 l2 :
  l1 ≡ₚ l2 -> occurrences k l1 = occurrences k l2.
Proof. intros Hp. unfold occurrences. by rewrite Hp. Qed.

Lemma Counter_Permutation {K} `{EqDecision K} (l1 l2 : list K) :
  l1 ≡ₚ l2 -> Counter l1 ≡ₚ Counter l2.
Proof.
  intros Hp. apply NoDup_Permutation.
  - eapply NoDup_fmap_1, Counter_NoDup.
  - eapply NoDup_fmap_1, Counter_NoDup.
  - intros [k n]. rewrite !elem_of_Counter.
    rewrite (occurrences_Permutation k l1 l2 Hp).
    split; intros [Hk ->]; (split; [|done]); [by rewrite <- Hp | by rewrite Hp].
Qed.

(** X2. [vendor_frequency] and [category_frequency] list each vendor and each
    category once, in the order of first appearance, with the number of
    receipts that carry it; a receipt without the field counts under
    "Unknown", and the counts of either table add up to the number of
    receipts. *)
Theorem frequency_tables (rs : list receipt) :
  rs ≠ [] -> numeric_amounts rs ->
  ∃ agg, calculate_aggregates rs = Ok agg ∧
    (NoDup (vendor_frequency agg).*1 ∧
     (∀ v n, (v, n) ∈ vendor_frequency agg <->
             v ∈ vendors_of rs ∧ n = occurrences v (vendors_of rs)) ∧
     sum_list (vendor_frequency agg).*2 = length rs) ∧
    (NoDup (category_frequency agg).*1 ∧
     (∀ v n, (v, n) ∈ category_frequency agg <->
             v ∈ categories_of rs ∧ n = occurrences v (categories_of rs)) ∧
     sum_list (category_frequency agg).*2 = length rs).
Proof.
  intros Hne Hnum.
  destruct (calculate_aggregates_numeric rs Hne Hnum) as (m & _ & ->).
  eexists. split; [done|]. cbn [vendor_frequency category_frequency].
  split; (split_and!;
    [apply Counter_NoDup
    |intros v n; apply elem_of_Counter
    |rewrite Counter_total; unfold vendors_of, categories_of; by rewrite length_fmap]).
Qed.

Lemma frequency_tables_witness :
  ∃ agg, calculate_aggregates prices = Ok agg ∧
         sum_list (vendor_frequency agg).*2 = length prices.
Proof.
  destruct (frequency_tables prices) as (agg & Hagg & (_ & _ & Hv) & _).
  - done.
  - repeat constructor.
  - by exists agg.
Defined.

(** ** The median splits the amounts *)


Lemma filter_all {A} (P : A -> Prop) `{!∀ x, Decision (P x)} (l : list A) :
  Forall P l -> filter P l = l.
Proof.
  induction 1 as [|x l Hx _ IH]; [done|].
  by rewrite filter_cons, decide_True, IH.
Qed.






(** ** The order of the receipts *)

Lemma sort_pure_Permutation (l1 l2 : list Qc) :
  l1 ≡ₚ l2 -> sort_pure id num_ltb l1 = sort_pure id num_ltb l2.
Proof.
  intros Hp.
  destruct (sorted_amounts_spec l1) as (_ & Hp1 & Hs1).
  destruct (sorted_amounts_spec l2) as (_ & Hp2 & Hs2).
  apply (StronglySorted_unique_strong Qcle); [|done..|by rewrite Hp1, Hp2].
  intros x y _ _. apply Qcle_antisym.
Qed.

Lemma median_of_Permutation (l1 l2 : list Qc) :
  l1 ≡ₚ l2 -> median_of l1 = median_of l2.
Proof.
  intros Hp. unfold median_of.
  destruct (sorted_amounts_spec l1) as (-> & _ & _).
  destruct (sorted_amounts_spec l2) as (-> & _ & _).
  by rewrite (sort_pure_Permutation l1 l2 Hp).
Qed.

Lemma mode_of_Permutation (l1 l2 : list Qc) :
  l1 ≡ₚ l2 -> mode_of l1 ≡ₚ mode_of l2.
Proof.
  intros Hp. apply NoDup_Permutation; [apply mode_of_NoDup..|].
  intros a. rewrite !elem_of_mode_of.
  split; intros [Ha Hmax]; (split; [by rewrite Hp in * || by rewrite <- Hp in *|]);
    intros b; specialize (Hmax b);
    by rewrite (occurrences_Permutation a l1 l2 Hp),
               (occurrences_Permutation b l1 l2 Hp) in *.
Qed.

(** X4. The median, the modes and the frequency tables do not depend on the
    order of the receipts: the median is the same, and the modes and the two
    tables hold the same items (their order is that of first appearance). *)
Theorem calculate_aggregates_order (rs rs' : list receipt) :
  rs ≡ₚ rs' -> rs ≠ [] -> numeric_amounts rs ->
  ∃ agg agg', calculate_aggregates rs = Ok agg ∧
              calculate_aggregates rs' = Ok agg' ∧
              median_spend agg = median_spend agg' ∧
              mode_spend agg ≡ₚ mode_spend agg' ∧
              vendor_frequency agg ≡ₚ vendor_frequency agg' ∧
              category_frequency agg ≡ₚ category_frequency agg'.
Proof.
  intros Hp Hne Hnum.
  assert (rs' ≠ []) as Hne'.
  { intros ->. by apply Permutation_nil_r in Hp. }
  assert (numeric_amounts rs') as Hnum'.
  { unfold numeric_amounts. by rewrite <- Hp. }
  destruct (calculate_aggregates_numeric rs Hne Hnum) as (m & Hm & ->).
  destruct (calculate_aggregates_numeric rs' Hne' Hnum') as (m' & Hm' & ->).
  assert (amounts_of rs ≡ₚ amounts_of rs') as Ha by (unfold amounts_of; by rewrite Hp).
  eexists _, _. split; [done|]. split; [done|].
  cbn [median_spend mode_spend vendor_frequency category_frequency].
  split_and!.
  - rewrite (median_of_Permutation _ _ Ha), Hm' in Hm. by injection Hm.
  - by apply mode_of_Permutation.
  - apply Counter_Permutation. unfold vendors_of. by rewrite Hp.
  - apply Counter_Permutation. unfold categories_of. by rewrite Hp.
Qed.

Lemma calculate_aggregates_order_witness :
  ∃ agg agg', calculate_aggregates prices = Ok agg ∧
              calculate_aggregates (reverse prices) = Ok agg' ∧
              median_spend agg = median_spend agg'.
Proof.
  destruct (calculate_aggregates_order prices (reverse prices))
    as (agg & agg' & H1 & H2 & H3 & _).
  - symmetry. apply reverse_Permutation.
  - done.
  - repeat constructor.
  - by exists agg, agg'.
Defined.

(** ** [time_series_aggregation]: what the result holds *)

Lemma time_series_sorted period rs :
  period = "month" ∨ period = "year" -> dated_numeric rs ->
  time_series_aggregation rs period
  = Ok (sort_pure fst str_ltb (filed (entries period rs))).
Proof.
  intros Hp Hrs. unfold time_series_aggregation.
  rewrite (time_series_loop_entries _ _ _ Hp Hrs). cbn [mbind result_bind].
  unfold sorted. by rewrite (sort_agrees fst str_ltb).
Qed.

Lemma filed_NoDup es : NoDup (filed es).*1.
Proof. apply foldl_add_NoDup. constructor. Qed.

Lemma elem_of_filed es k v :
  (k, v) ∈ filed es <-> k ∈ es.*1 ∧ v = bucket k es.
Proof.
  rewrite (elem_of_value_at Qcplus 0%Qc) by apply filed_NoDup.
  unfold filed. rewrite foldl_add_keys, foldl_add_value. cbn [fmap list_fmap].
  rewrite elem_of_nil. unfold bucket, sum. cbn [value_at]. tauto.
Qed.

Lemma sorted_filed_strict es :
  StronglySorted (fun a b => str_ltb a.1 b.1 = true) (sort_pure fst str_ltb (filed es)).
Proof.
  apply (sorted_strict fst str_ltb); [apply sort_pure_sorted, _|].
  rewrite (sort_pure_perm fst str_ltb). apply filed_NoDup.
Qed.

(** ** A period that is neither "month" nor "year" *)

Lemma time_series_loop_invalid period rs c :
  period ≠ "month" -> period ≠ "year" ->
  time_series_loop period c rs
  = if existsb dated rs then Err ValueError else Ok c.
Proof.
  intros Hm Hy. induction rs as [|r rs IH]; [done|].
  cbn [time_series_loop existsb]. unfold time_series_step, dated at 1.
  destruct (get r "transaction_date" (VObj ONone)) as [q|[|s|d]];
    cbn [is_date orb mbind result_bind]; try exact IH.
  by rewrite !decide_False by done.
Qed.

(** X5. With a period that is neither "month" nor "year" the result is the
    empty series when no receipt has a date, and [ValueError] as soon as one
    has, whatever the amounts are. *)
Theorem time_series_invalid_period (rs : list receipt) (period : string) :
  period ≠ "month" -> period ≠ "year" ->
  time_series_aggregation rs period
  = if existsb dated rs then Err ValueError else Ok [].
Proof.
  intros Hm Hy. unfold time_series_aggregation.
  rewrite (time_series_loop_invalid _ _ _ Hm Hy). by destruct (existsb dated rs).
Qed.

Lemma time_series_invalid_period_witness :
  time_series_aggregation [undated 7; unpriced; on 2024 1 5 100] "week"
  = Err ValueError.
Proof.
  by rewrite (time_series_invalid_period
                [undated 7; unpriced; on 2024 1 5 100] "week").
Defined.

(** ** The receipts without a date *)

Lemma time_series_loop_dated period rs c :
  time_series_loop period c rs
  = time_series_loop period c (filter (fun r => dated r = true) rs).
Proof.
  revert c. induction rs as [|r rs IH]; intros c; [done|].
  rewrite filter_cons. case_decide as Hd.
  - cbn [time_series_loop]. destruct (time_series_step period c r); [|done].
    cbn [mbind result_bind]. apply IH.
  - cbn [time_series_loop]. unfold time_series_step, dated in *.
    destruct (get r "transaction_date" (VObj ONone)) as [q|[|s|d]];
      cbn [mbind result_bind]; try apply IH.
    by destruct Hd.
Qed.

(** X6. The receipts without a date play no part in the series, whatever
    the period is: the result, and the error if there is one, are those of
    the receipts that have a date, taken in their order. *)
Theorem time_series_undated (rs : list receipt) (period : string) :
  time_series_aggregation rs period
  = time_series_aggregation (filter (fun r => dated r = true) rs) period.
Proof.
  unfold time_series_aggregation. by rewrite time_series_loop_dated.
Qed.

(** ** The order of strings that hold dates *)

Lemma compare_append (a a' b b' : string) :
  String.length a = String.length a' ->
  String_as_OT.compare (a ++ b) (a' ++ b')
  = match String_as_OT.compare a a' with
    | Eq => String_as_OT.compare b b'
    | c => c
    end.
Proof.
  revert a'. induction a as [|c a IH]; intros [|c' a']; simpl; try done.
  intros [= Hlen]. destruct (Ascii_as_OT.compare c c'); auto.
Qed.

Lemma compare_digit x y :
  Ascii_as_OT.compare (digit_char x) (digit_char y) = (x mod 10 ?= y mod 10)%Z.
Proof.
  unfold Ascii_as_OT.compare, digit_char.
  pose proof (Z.mod_pos_bound x 10). pose proof (Z.mod_pos_bound y 10).
  rewrite !Ascii.N_ascii_embedding by lia.
  rewrite Z2N.inj_compare by lia. apply Z.add_compare_mono_l.
Qed.

Lemma compare_zero_padded w x y :
  (0 ≤ x < 10 ^ Z.of_nat w)%Z -> (0 ≤ y < 10 ^ Z.of_nat w)%Z ->
  String_as_OT.compare (zero_padded w x) (zero_padded w y) = (x ?= y)%Z.
Proof.
  revert x y. induction w as [|w IH]; intros x y Hx Hy.
  - simpl in *. assert (x = 0%Z) as -> by lia. assert (y = 0%Z) as -> by lia. done.
  - cbn [zero_padded]. rewrite compare_append by by rewrite !length_zero_padded.
    rewrite Nat2Z.inj_succ, Z.pow_succ_r in Hx, Hy by lia.
    rewrite IH by (split; [apply Z.div_pos; lia|apply Z.div_lt_upper_bound; lia]).
    cbn [String_as_OT.compare]. rewrite compare_digit.
    pose proof (Z.div_mod x 10 ltac:(lia)). pose proof (Z.div_mod y 10 ltac:(lia)).
    pose proof (Z.mod_pos_bound x 10 ltac:(lia)).
    pose proof (Z.mod_pos_bound y 10 ltac:(lia)).
    destruct (Z.compare_spec (x / 10) (y / 10)),
             (Z.compare_spec (x mod 10) (y mod 10)),
             (Z.compare_spec x y); try done; lia.
Qed.

Lemma ascii_compare_refl c : Ascii_as_OT.compare c c = Eq.
Proof. apply N.compare_refl. Qed.

Lemma compare_same_prefix (a b b' : string) :
  String_as_OT.compare (a ++ b) (a ++ b') = String_as_OT.compare b b'.
Proof. induction a as [|c a IH]; [done|]. simpl. by rewrite ascii_compare_refl. Qed.

Lemma is_lt_lex x y c :
  is_lt match (x ?= y)%Z with Eq => c | Lt => Lt | Gt => Gt end
  = (x <? y)%Z || ((x =? y)%Z && is_lt c).
Proof.
  destruct (Z.compare_spec x y).
  - subst. by rewrite Z.ltb_irrefl, Z.eqb_refl.
  - by rewrite (proj2 (Z.ltb_lt _ _)) by done.
  - rewrite (proj2 (Z.ltb_ge _ _)) by lia. rewrite (proj2 (Z.eqb_neq _ _)) by lia. done.
Qed.

Lemma compare_field w x y (s t : string) :
  (0 ≤ x < 10 ^ Z.of_nat w)%Z -> (0 ≤ y < 10 ^ Z.of_nat w)%Z ->
  is_lt (String_as_OT.compare (zero_padded w x ++ s) (zero_padded w y ++ t))
  = (x <? y)%Z || ((x =? y)%Z && is_lt (String_as_OT.compare s t)).
Proof.
  intros Hx Hy. rewrite compare_append by by rewrite !length_zero_padded.
  rewrite compare_zero_padded by done. apply is_lt_lex.
Qed.

Lemma str_ltb_is_lt a b : str_ltb a b = is_lt (String_as_OT.compare a b).
Proof. done. Qed.

Lemma days_in_month_le y m : (days_in_month y m ≤ 31)%Z.
Proof. unfold days_in_month. repeat case_match; lia. Qed.

(** From 1000 on the year has four digits. *)
Lemma pretty_four_digits y : (1000 ≤ y ≤ 9999)%Z -> pretty y = zero_padded 4 y.
Proof.
  intros Hy.
  assert (Forall (fun y : Z => pretty y = zero_padded 4 y) (seqZ 1000 9000)) as H.
  { apply (bool_decide_unpack _). vm_compute. exact I. }
  rewrite Forall_forall in H. apply H, elem_of_seqZ. lia.
Qed.

Lemma strftime_year_order d1 d2 :
  four_digit_year d1 -> four_digit_year d2 ->
  str_ltb (strftime_year d1) (strftime_year d2) = (year d1 <? year d2)%Z.
Proof.
  intros [(HY1 & _) ?] [(HY2 & _) ?]. unfold strftime_year.
  rewrite !pretty_four_digits by lia.
  rewrite str_ltb_is_lt, compare_zero_padded by (simpl; lia).
  destruct (Z.compare_spec (year d1) (year d2)); simpl; symmetry;
    [apply Z.ltb_ge|apply Z.ltb_lt|apply Z.ltb_ge]; lia.
Qed.

Lemma strftime_month_order d1 d2 :
  four_digit_year d1 -> four_digit_year d2 ->
  str_ltb (strftime_month d1) (strftime_month d2)
  = (year d1 <? year d2)%Z || ((year d1 =? year d2)%Z && (month d1 <? month d2)%Z).
Proof.
  intros [(HY1 & HM1 & _) ?] [(HY2 & HM2 & _) ?]. unfold strftime_month.
  rewrite !pretty_four_digits by lia.
  rewrite str_ltb_is_lt, compare_field by (simpl; lia).
  do 2 f_equal. rewrite compare_same_prefix.
  rewrite compare_zero_padded by (simpl; lia).
  destruct (Z.compare_spec (month d1) (month d2)); simpl; symmetry;
    [apply Z.ltb_ge|apply Z.ltb_lt|apply Z.ltb_ge]; lia.
Qed.

Lemma label_order period d1 d2 :
  four_digit_year d1 -> four_digit_year d2 ->
  str_ltb (label period d1) (label period d2) = true ->
  (period_rank period d1 < period_rank period d2)%Z.
Proof.
  intros Hd1 Hd2. unfold label, period_rank. case_decide.
  - rewrite strftime_month_order by done.
    destruct Hd1 as [(_ & HM1 & _) _], Hd2 as [(_ & HM2 & _) _]. lia.
  - rewrite strftime_year_order by done. lia.
Qed.

(** X7. For dates from the year 1000 on, the items of the series are in
    chronological order: an item comes before another only when its period
    is the earlier one. *)
Theorem time_series_chronological (rs : list receipt) (period : string) :
  period = "month" ∨ period = "year" -> dated_numeric rs ->
  ∃ out, time_series_aggregation rs period = Ok out ∧
    StronglySorted (fun a b =>
      ∀ d1 d2, four_digit_year d1 -> four_digit_year d2 ->
               label period d1 = a.1 -> label period d2 = b.1 ->
               (period_rank period d1 < period_rank period d2)%Z) out.
Proof.
  intros Hp Hrs. rewrite (time_series_sorted _ _ Hp Hrs).
  eexists. split; [done|].
  eapply StronglySorted_weaken; [|apply sorted_filed_strict].
  intros a b Hab d1 d2 Hd1 Hd2 H1 H2. simpl in Hab.
  rewrite <- H1, <- H2 in Hab. by apply label_order.
Qed.

Lemma time_series_chronological_witness :
  ∃ out, time_series_aggregation [on 2024 3 9 40; undated 7; on 2023 12 31 2] "month"
         = Ok out ∧
    StronglySorted (fun a b =>
      ∀ d1 d2, four_digit_year d1 -> four_digit_year d2 ->
               label "month" d1 = a.1 -> label "month" d2 = b.1 ->
               (period_rank "month" d1 < period_rank "month" d2)%Z) out.
Proof.
  apply (time_series_chronological [on 2024 3 9 40; undated 7; on 2023 12 31 2] "month").
  - by left.
  - repeat constructor.
Defined.

(** The string of a date: the order of the strings is the order in time. *)
Lemma str_datetime_order d1 d2 :
  valid_datetime d1 -> valid_datetime d2 ->
  str_ltb (str_datetime d1) (str_datetime d2) = before d1 d2.
Proof.
  destruct d1 as [Y1 M1 D1 h1 m1 s1 u1], d2 as [Y2 M2 D2 h2 m2 s2 u2].
  unfold valid_datetime, str_datetime, before, fields.
  cbn [year month day hour minute second microsecond lex_ltb].
  intros (HY1 & HM1 & HD1 & Hh1 & Hm1 & Hs1 & Hu1)
         (HY2 & HM2 & HD2 & Hh2 & Hm2 & Hs2 & Hu2).
  pose proof (days_in_month_le Y1 M1). pose proof (days_in_month_le Y2 M2).
  rewrite str_ltb_is_lt.
  repeat (rewrite compare_field by (simpl; lia); do 2 f_equal;
          rewrite compare_same_prefix).
  rewrite compare_field by (simpl; lia). do 2 f_equal.
  rewrite andb_false_r, orb_false_r.
  repeat case_bool_decide; subst.
  - done.
  - simpl. symmetry. apply Z.ltb_lt. lia.
  - simpl. symmetry. apply Z.ltb_ge. lia.
  - rewrite compare_same_prefix.
    rewrite compare_zero_padded by (simpl; lia).
    destruct (Z.compare_spec u1 u2); simpl; symmetry;
      [apply Z.ltb_ge|apply Z.ltb_lt|apply Z.ltb_ge]; lia.
Qed.

(** ** The searches *)

Lemma search_loop_filter (P : receipt -> Prop) `{!∀ r, Decision (P r)}
    (test : receipt -> result bool) (rs acc : list receipt) :
  Forall (fun r => test r = Ok (bool_decide (P r))) rs ->
  search_loop test acc rs = Ok (acc ++ filter P rs).
Proof.
  intros Hrs. revert acc. induction Hrs as [|r rs Hr _ IH]; intros acc.
  - by rewrite filter_nil, app_nil_r.
  - cbn [search_loop]. rewrite Hr. cbn [mbind result_bind].
    rewrite IH, filter_cons. destruct (decide (P r)) as [HP|HP].
    + rewrite bool_decide_eq_true_2 by done. by rewrite <- app_assoc.
    + by rewrite bool_decide_eq_false_2 by done.
Qed.

Lemma search_loop_Err (test : receipt -> result bool) (rs acc : list receipt) e :
  (∀ r e', test r = Err e' -> e' = e) ->
  Exists (fun r => test r = Err e) rs ->
  search_loop test acc rs = Err e.
Proof.
  intros He Hex. revert acc. induction Hex as [r rs Hr|r rs _ IH]; intros acc.
  - cbn [search_loop]. by rewrite Hr.
  - cbn [search_loop]. destruct (test r) as [b|e'] eqn:Hr.
    + apply IH.
    + by rewrite (He _ _ Hr).
Qed.

Lemma get_absent key r :
  absent key r -> get r key (VObj ONone) = VObj ONone.
Proof. unfold get. by intros [-> | ->]. Qed.

Lemma amount_test_typed lo hi r :
  absent "amount" r ∨ (∃ q, r !! "amount" = Some (VNum q)) ->
  amount_test lo hi r = Ok (bool_decide (amount_within lo hi r)).
Proof.
  intros Hr. destruct (decide (amount_within lo hi r)) as [H|H];
    [rewrite bool_decide_eq_true_2 by done|rewrite bool_decide_eq_false_2 by done];
    unfold amount_within in H; unfold amount_test; destruct Hr as [Ha|[q Hq]].
  - by destruct Ha as [Ha|Ha]; rewrite Ha in H.
  - unfold get. rewrite Hq in *. cbn [default from_option id num_ge num_le].
    destruct lo as [m|], hi as [m'|]; cbn [mbind result_bind from_option] in *;
      repeat case_bool_decide; try done; tauto.
  - by rewrite (get_absent _ _ Ha).
  - unfold get. rewrite Hq in *. cbn [default from_option id num_ge num_le].
    destruct lo as [m|], hi as [m'|]; cbn [mbind result_bind from_option] in *;
      repeat case_bool_decide; try done; tauto.
Qed.

Lemma amount_loop_filter rs lo hi acc :
  amount_column rs ->
  search_loop (amount_test lo hi) acc rs = Ok (acc ++ filter (amount_within lo hi) rs).
Proof.
  intros Hrs. apply (search_loop_filter (amount_within lo hi)).
  eapply Forall_impl; [exact Hrs|]. intros r. apply amount_test_typed.
Qed.

(** X8. On receipts whose amounts are numbers (or missing),
    [range_search_receipts_by_amount] returns, in their order, exactly the
    receipts whose amount lies between the bounds that are given, the bounds
    included; a receipt without an amount is never returned, not even when
    no bound is given. *)
Theorem range_search_amount (rs : list receipt) (lo hi : option Qc) :
  amount_column rs ->
  range_search_receipts_by_amount rs lo hi = Ok (filter (amount_within lo hi) rs).
Proof.
  intros Hrs. unfold range_search_receipts_by_amount.
  by rewrite amount_loop_filter.
Qed.

Lemma range_search_amount_witness :
  range_search_receipts_by_amount [priced 30; ∅; priced 10; priced 20]
    (Some (Qc_of_Z 20)) (Some (Qc_of_Z 30))
  = Ok [priced 30; priced 20].
Proof.
  rewrite (range_search_amount [priced 30; ∅; priced 10; priced 20]).
  - done.
  - repeat first [apply List.Forall_nil | apply List.Forall_cons];
      first [by right; eexists | by left; left].
Defined.





(** *** Values of another type *)

Lemma amount_test_Err lo hi r e : amount_test lo hi r = Err e -> e = TypeError.
Proof.
  unfold amount_test.
  destruct (get r "amount" (VObj ONone)) as [q|[|s|d]]; try done;
    destruct lo, hi; cbn; try done; try congruence;
    repeat case_bool_decide; congruence.
Qed.

(** X10. With no bound at all [range_search_receipts_by_amount] compares
    nothing and returns every receipt that has an amount, of whatever type;
    with a bound, a receipt whose amount is a string or a date makes the
    search raise [TypeError]. *)
Theorem range_search_amount_untyped (rs : list receipt) (lo hi : option Qc) :
  range_search_receipts_by_amount rs None None
  = Ok (filter (fun r => ¬ absent "amount" r) rs) ∧
  (lo ≠ None ∨ hi ≠ None ->
   Exists (fun r => ∃ o, r !! "amount" = Some (VObj o) ∧ o ≠ ONone) rs ->
   range_search_receipts_by_amount rs lo hi = Err TypeError).
Proof.
  split.
  - unfold range_search_receipts_by_amount.
    rewrite (search_loop_filter (fun r => ¬ absent "amount" r)); [done|].
    apply Forall_forall. intros r _.
    destruct (decide (¬ absent "amount" r)) as [H|H];
      [rewrite bool_decide_eq_true_2 by done|rewrite bool_decide_eq_false_2 by done];
      unfold amount_test, absent, get in *;
      destruct (r !! "amount") as [[q|[|s|d]]|] eqn:Hr; cbn; try done.
    + destruct H. by right.
    + destruct H. by left.
    + destruct H. intros [?|?]; congruence.
    + destruct H. intros [?|?]; congruence.
    + destruct H. intros [?|?]; congruence.
  - intros Hb Hex. apply search_loop_Err; [apply amount_test_Err|].
    eapply Exists_impl; [exact Hex|]. intros r (o & Hr & Ho).
    unfold amount_test, get. rewrite Hr. cbn [default from_option id].
    destruct o as [|s|d]; [done|..];
      destruct lo as [m|], hi as [m'|]; cbn; destruct Hb; done.
Qed.

Lemma range_search_amount_untyped_witness :
  range_search_receipts_by_amount [priced 30; unpriced] (Some (Qc_of_Z 5)) None
  = Err TypeError.
Proof.
  apply (range_search_amount_untyped [priced 30; unpriced] (Some (Qc_of_Z 5)) None).
  - by left.
  - apply Exists_cons_tl, Exists_cons_hd. by eexists.
Defined.

(** *** The keyword search *)

Lemma append_cons c (a b : string) : (String c a ++ b)%string = String c (a ++ b)%string.
Proof. done. Qed.

Lemma prefix_spec (p s : string) :
  String.prefix p s = true <-> ∃ b, s = (p ++ b)%string.
Proof.
  revert s. induction p as [|c p IH]; intros s.
  - split; [|by destruct s]. intros _. by exists s.
  - destruct s as [|c' s]; simpl.
    + split; [done|]. by intros [b ?].
    + destruct (Ascii.ascii_dec c c') as [->|Hc].
      * rewrite IH. split; intros [b Hb]; exists b; rewrite append_cons in *; congruence.
      * split; [done|]. intros [b Hb]. rewrite append_cons in Hb. congruence.
Qed.

Lemma str_in_spec (needle hay : string) :
  str_in needle hay = true <-> occurs_in needle hay.
Proof.
  unfold occurs_in. induction hay as [|c hay IH]; cbn [str_in].
  - rewrite orb_false_r, prefix_spec. split.
    + intros [b Hb]. by exists ""%string, b.
    + intros (a & b & Hab). destruct a; [by exists b|done].
  - rewrite orb_true_iff, prefix_spec, IH. split.
    + intros [[b Hb]|(a & b & Hab)].
      * by exists ""%string, b.
      * exists (String c a), b. rewrite append_cons. by rewrite Hab.
    + intros (a & b & Hab). destruct a as [|c' a].
      * left. by exists b.
      * right. exists a, b. rewrite append_cons in Hab. congruence.
Qed.

Section LinearSearchFacts.
Variable str_num : Qc -> string.
Variable str_lower : string -> string.

Lemma linear_search_filter rs query field case_sensitive :
  linear_search_receipts str_num str_lower rs query field case_sensitive
  = Ok (filter (fun r => str_in (searched_query str_lower query case_sensitive)
                           (searched_text str_num str_lower field case_sensitive r)
                         = true) rs).
Proof.
  unfold linear_search_receipts.
  rewrite (search_loop_filter
             (fun r => str_in (searched_query str_lower query case_sensitive)
                         (searched_text str_num str_lower field case_sensitive r)
                       = true)); [done|].
  apply Forall_forall. intros r _.
  unfold linear_search_test, searched_query, searched_text.
  destruct case_sensitive; cbn [negb]; f_equal;
    by destruct (str_in _ _).
Qed.

Lemma str_in_empty hay : str_in "" hay = true.
Proof. destruct hay; done. Qed.

Lemma str_in_of_empty needle : str_in needle "" = true -> needle = ""%string.
Proof. by destruct needle. Qed.

Lemma field_text_blank field r : blank field r -> field_text str_num r field = ""%string.
Proof. unfold blank, field_text. by intros ->. Qed.

(** X11. The keyword search returns, in their order, exactly the receipts in
    whose field text the query occurs, both lower-cased unless the search is
    case-sensitive.  The empty query returns every receipt.  The text of a
    field that is missing or holds [None], the empty string or zero is the
    empty string, so that such a receipt is returned for no other query: not
    for "none", and not for "0". *)
Theorem linear_search_keyword (rs : list receipt) (query field : string)
    (case_sensitive : bool) :
  str_lower "" = ""%string -> (∀ s, str_lower s = ""%string -> s = ""%string) ->
  ∃ out,
    linear_search_receipts str_num str_lower rs query field case_sensitive = Ok out ∧
    out `sublist_of` rs ∧
    (∀ r, r ∈ out <->
          r ∈ rs ∧ occurs_in (searched_query str_lower query case_sensitive)
                     (searched_text str_num str_lower field case_sensitive r)) ∧
    (query = ""%string -> out = rs) ∧
    (query ≠ ""%string -> ∀ r, r ∈ out -> ¬ blank field r).
Proof.
  intros Hnil Hinj. rewrite linear_search_filter. eexists. split; [done|].
  split_and!.
  - apply sublist_filter.
  - intros r. rewrite list_elem_of_filter, str_in_spec. tauto.
  - intros ->. apply filter_all, Forall_forall. intros r _.
    unfold searched_query. destruct case_sensitive; rewrite ?Hnil; apply str_in_empty.
  - intros Hq r [Hin _]%list_elem_of_filter Hb. apply Hq.
    unfold searched_query, searched_text in Hin.
    rewrite (field_text_blank _ _ Hb) in Hin.
    destruct case_sensitive.
    + by apply str_in_of_empty.
    + rewrite Hnil in Hin. by apply Hinj, str_in_of_empty.
Qed.
End LinearSearchFacts.

Lemma str_lower_sample_nil s : str_lower_sample s = ""%string -> s = ""%string.
Proof. by destruct s. Qed.

Lemma linear_search_keyword_witness :
  ∃ out,
    linear_search_receipts str_num_sample str_lower_sample
      [sold_by "Corner Cafe"; priced 3; sold_by "Bakery"] "CAFE" "vendor" false = Ok out ∧
    out `sublist_of` [sold_by "Corner Cafe"; priced 3; sold_by "Bakery"].
Proof.
  destruct (linear_search_keyword str_num_sample str_lower_sample
              [sold_by "Corner Cafe"; priced 3; sold_by "Bakery"] "CAFE" "vendor" false)
    as (out & Hout & Hsub & _).
  - done.
  - apply str_lower_sample_nil.
  - by exists out.
Defined.

(** ** The endpoints *)

Section EndpointFacts.
Variable str_num : Qc -> string.
Variable str_lower : string -> string.

Lemma call_not_HTTP {A} (r : result A) c d : Main.call r ≠ Main.HTTPException c d.
Proof. by destruct r. Qed.

Lemma optional_call_not_HTTP {A} (b : bool) (r : result A) (a : A) c d :
  (if b then Main.call r else Main.Returned a) ≠ Main.HTTPException c d.
Proof. destruct b; [apply call_not_HTTP|done]. Qed.

Lemma bind_HTTP {A B} (m : Main.response A) (f : A -> Main.response B) c d :
  m ≫= f = Main.HTTPException c d ->
  m = Main.HTTPException c d ∨ ∃ a, m = Main.Returned a ∧ f a = Main.HTTPException c d.
Proof.
  destruct m as [a|c' d'|e]; unfold mbind, Main.response_bind; intros H.
  - right. by exists a.
  - left. congruence.
  - done.
Qed.

(** X12. [search_receipts] answers 400 exactly when a query and a field are
    both given (neither missing nor empty) and the field is not one of
    vendor, category, extracted_text and filename; without a query the field
    is not looked at, whatever it is. *)
Theorem search_receipts_invalid_field (rs : list receipt) (query field : option string)
    (min_amount max_amount : option Qc) (start_date end_date : option datetime) :
  (∃ c d, Main.filtered_receipts str_num str_lower rs query field
            min_amount max_amount start_date end_date = Main.HTTPException c d)
  <-> invalid_field query field.
Proof.
  unfold Main.filtered_receipts, invalid_field. split.
  - intros (c & d & H).
    apply bind_HTTP in H as [H|(f1 & _ & H)].
    + destruct (Main.given query), (Main.given field); cbn [andb] in H; try done.
      split; [done|]. split; [done|]. case_bool_decide; [|done].
      by apply call_not_HTTP in H.
    + apply bind_HTTP in H as [H|(f2 & _ & H)];
        [by apply optional_call_not_HTTP in H|].
      apply bind_HTTP in H as [H|(f3 & _ & H)];
        [by apply optional_call_not_HTTP in H|discriminate H].
  - intros (Hq & Hf & Hin). rewrite Hq, Hf. cbn [andb].
    rewrite (bool_decide_eq_false_2 _ Hin). by eexists _, _.
Qed.


End EndpointFacts.


(** *** Sorting by a date *)

Lemma StronglySorted_weaken_in {A} (R1 R2 : relation A) l :
  (∀ x y, x ∈ l -> y ∈ l -> R1 x y -> R2 x y) ->
  StronglySorted R1 l -> StronglySorted R2 l.
Proof.
  intros HR Hs. induction Hs as [|x l Hl IH Hx]; constructor.
  - apply IH. intros y z Hy Hz. apply HR; by right.
  - rewrite Forall_forall in *. intros y Hy. apply HR; [by left|by right|by apply Hx].
Qed.

Lemma all_dates_typed key rs : all_dates key rs -> typed_field key rs.
Proof. intros H. right. by right. Qed.

Lemma key_leq_dates key (x y : receipt) d1 d2 :
  valid_datetime d1 -> valid_datetime d2 ->
  x !! key = Some (VObj (ODate d1)) -> y !! key = Some (VObj (ODate d2)) ->
  key_leq (key_of key x) (key_of key y) -> before d2 d1 = false.
Proof.
  intros Hd1 Hd2 Hx Hy. rewrite !key_of_cases, Hx, Hy. cbn [str].
  inversion 1 as [|s t Hst]; subst. by rewrite str_datetime_order in Hst.
Qed.

Lemma sort_receipts_by_date key rs reverse :
  all_dates key rs ->
  ∃ out, sort_receipts rs key reverse = Ok out ∧ out ≡ₚ rs ∧
         StronglySorted (by_time key reverse) out.
Proof.
  intros Hrs. destruct (typed_field_keys key rs (all_dates_typed _ _ Hrs)) as [Hk _].
  assert (∀ l, l ≡ₚ rs ->
            StronglySorted (fun x y => key_leq (key_of key x) (key_of key y)) l ->
            StronglySorted (not_after key) l) as Hweak.
  { intros l Hl. apply StronglySorted_weaken_in. intros x y Hx Hy Hxy d1 d2 H1 H2.
    unfold all_dates in Hrs. rewrite Forall_forall in Hrs.
    rewrite Hl in Hx, Hy.
    destruct (Hrs x Hx) as (d1' & H1' & Hv1), (Hrs y Hy) as (d2' & H2' & Hv2).
    simplify_eq. by eapply key_leq_dates. }
  destruct reverse.
  - rewrite (sort_receipts_desc key rs Hk). eexists. split; [done|].
    assert (one_kind (key_of key <$> rev rs)) as Hk'.
    { rewrite rev_reverse, fmap_reverse. by apply one_kind_reverse. }
    pose proof (sort_pure_perm (key_of key) key_ltb (rev rs)) as Hp.
    rewrite rev_reverse in Hp at 2. rewrite reverse_Permutation in Hp.
    split.
    + by rewrite rev_reverse, reverse_Permutation.
    + apply (StronglySorted_rev (not_after key)), Hweak; [done|].
      by apply sort_pure_key_leq.
  - rewrite (sort_receipts_asc key rs Hk). eexists. split; [done|].
    pose proof (sort_pure_perm (key_of key) key_ltb rs) as Hp.
    split; [done|]. apply Hweak; [done|]. by apply sort_pure_key_leq.
Qed.

(** X14. [sort_receipts_endpoint] answers 400 for a field or an order it does
    not know, whatever the receipts.  Sorting by one of the two date fields,
    on receipts that all hold a date there, answers with the same receipts
    in the order of time: oldest first for "asc", newest first for "desc". *)
Theorem sort_receipts_endpoint_dates (rs : list receipt) (sort_by order : string) :
  (sort_by ∉ ["vendor"; "transaction_date"; "amount"; "category"; "uploaded_at"]%string ∨
   order ∉ ["asc"; "desc"]%string ->
   ∃ d, Main.sorted_receipts rs sort_by order = Main.HTTPException 400 d) ∧
  (sort_by ∈ ["transaction_date"; "uploaded_at"]%string ->
   order ∈ ["asc"; "desc"]%string ->
   all_dates sort_by rs ->
   ∃ out, Main.sorted_receipts rs sort_by order = Main.Returned out ∧
          out ≡ₚ rs ∧
          StronglySorted (by_time sort_by (bool_decide (order = "desc"%string))) out).
Proof.
  unfold Main.sorted_receipts. split.
  - intros [Hs|Ho].
    + rewrite (bool_decide_eq_false_2 _ Hs). by eexists.
    + case_bool_decide; cbn [negb]; [|by eexists].
      rewrite (bool_decide_eq_false_2 _ Ho). by eexists.
  - intros Hs Ho Hrs.
    rewrite bool_decide_eq_true_2
      by (rewrite !elem_of_cons in Hs; rewrite !elem_of_cons; tauto).
    cbn [negb].
    rewrite (bool_decide_eq_true_2 _ Ho). cbn [negb].
    destruct (sort_receipts_by_date sort_by rs
                (if bool_decide (order = "desc"%string) then true else false) Hrs)
      as (out & -> & Hp & Hsorted).
    exists out. split; [done|]. split; [done|]. by destruct (bool_decide _).
Qed.

Lemma sort_receipts_endpoint_dates_witness :
  ∃ out, Main.sorted_receipts [on 2024 3 9 40; on 2023 12 31 2]
           "transaction_date" "asc" = Main.Returned out ∧
         out ≡ₚ [on 2024 3 9 40; on 2023 12 31 2] ∧
         StronglySorted (by_time "transaction_date" false) out.
Proof.
  apply (proj2 (sort_receipts_endpoint_dates [on 2024 3 9 40; on 2023 12 31 2]
                  "transaction_date" "asc")).
  - rewrite !elem_of_cons. tauto.
  - rewrite !elem_of_cons. tauto.
  - repeat first [apply List.Forall_nil | apply List.Forall_cons];
      (eexists; split; [done|]); unfold valid_datetime; repeat split; by vm_compute.
Defined.

(** *** The vendors that occur most *)

#[global] Instance nat_ltb_strict_total : StrictTotal Nat.ltb.
Proof.
  split.
  - intros k. apply Nat.ltb_irrefl.
  - intros a b c ?%Nat.ltb_lt ?%Nat.ltb_lt. apply Nat.ltb_lt. lia.
  - intros a b ?%Nat.ltb_ge ?%Nat.ltb_ge. lia.
Qed.

Lemma sorted_by_count (l : list (value * nat)) :
  sorted Main.count_lt l true = Ok (rev (sort_pure snd Nat.ltb (rev l))).
Proof. unfold sorted. by rewrite (sort_agrees snd Nat.ltb). Qed.

Lemma sorted_by_count_spec (l : list (value * nat)) :
  let s := rev (sort_pure snd Nat.ltb (rev l)) in
  s ≡ₚ l ∧ StronglySorted (fun a b => b.2 ≤ a.2)%nat s ∧
  ∀ n, filter (fun a => a.2 = n) s = filter (fun a => a.2 = n) l.
Proof.
  intros s. split_and!.
  - unfold s. rewrite rev_reverse, reverse_Permutation.
    rewrite (sort_pure_perm snd Nat.ltb). by rewrite rev_reverse, reverse_Permutation.
  - unfold s. apply (StronglySorted_rev (fun a b => a.2 ≤ b.2)%nat).
    eapply StronglySorted_weaken; [|apply (sort_pure_sorted snd Nat.ltb)].
    intros a b Hab. unfold key_le in Hab. by apply Nat.ltb_ge in Hab.
  - intros n. unfold s. rewrite !rev_reverse, filter_reverse.
    rewrite (sort_pure_stable snd Nat.ltb n), filter_reverse.
    by rewrite reverse_involutive.
Qed.

Lemma numeric_dated_numeric rs : numeric_amounts rs -> dated_numeric rs.
Proof.
  intros H. eapply Forall_impl; [exact H|]. intros r ->. by rewrite orb_true_r.
Qed.

(** X15. [get_insights] answers whenever the amounts are numbers.  Its
    [top_vendors] are items of the vendor frequency table of
    [calculate_aggregates], five of them or all when there are fewer, in
    descending order of their counts; no vendor that is left out occurs more
    often than one that is listed; and vendors that occur equally often come
    in the order of their first appearance in the receipts. *)
Theorem get_insights_top_vendors (rs : list receipt) :
  numeric_amounts rs ->
  ∃ ins agg,
    Main.get_insights rs = Main.Returned ins ∧
    calculate_aggregates rs = Ok agg ∧
    length (Main.top_vendors ins) = (5 `min` length (vendor_frequency agg))%nat ∧
    Main.top_vendors ins ⊆ vendor_frequency agg ∧
    StronglySorted (fun a b => b.2 ≤ a.2)%nat (Main.top_vendors ins) ∧
    (∀ a b, a ∈ vendor_frequency agg -> a ∉ Main.top_vendors ins ->
            b ∈ Main.top_vendors ins -> (a.2 ≤ b.2)%nat) ∧
    (∀ n, filter (fun a => a.2 = n) (Main.top_vendors ins)
          `prefix_of` filter (fun a => a.2 = n) (vendor_frequency agg)).
Proof.
  intros Hnum. unfold Main.get_insights.
  destruct (calculate_aggregates_returns rs Hnum) as [agg Hagg].
  rewrite Hagg. cbn [Main.call mbind Main.response_bind].
  rewrite !time_series_sorted by (by apply numeric_dated_numeric || by (left + right)).
  cbn [Main.call mbind Main.response_bind].
  rewrite sorted_by_count. cbn [Main.call mbind Main.response_bind].
  eexists _, agg. split; [done|]. split; [done|]. cbn [Main.top_vendors].
  destruct (sorted_by_count_spec (vendor_frequency agg)) as (Hp & Hs & Hst).
  set (s := rev (sort_pure snd Nat.ltb (rev (vendor_frequency agg)))) in *.
  assert (NoDup s) as Hnd.
  { rewrite Hp. eapply NoDup_fmap_1.
    destruct (decide (rs = [])) as [-> |Hne].
    - injection Hagg as <-. constructor.
    - destruct (calculate_aggregates_numeric rs Hne Hnum) as (m & _ & Hagg').
      rewrite Hagg' in Hagg. injection Hagg as <-. apply Counter_NoDup. }
  split_and!.
  - rewrite length_take, Hp. done.
  - intros a Ha. rewrite <- Hp. eapply elem_of_sublist; [exact Ha|apply sublist_take].
  - rewrite <- (take_drop 5 s) in Hs. by apply StronglySorted_app_1_l in Hs.
  - intros a b Ha Hna Hb. rewrite <- Hp, <- (take_drop 5 s) in Ha.
    apply elem_of_app in Ha as [Ha|Ha]; [done|].
    rewrite <- (take_drop 5 s) in Hs.
    by apply (StronglySorted_app_1_elem_of _ _ _ b a) in Hs.
  - intros n. rewrite <- Hst. rewrite <- (take_drop 5 s) at 2.
    rewrite filter_app. by eexists.
Qed.

Lemma get_insights_top_vendors_witness :
  ∃ ins, Main.get_insights (sold_by <$> ["a"; "b"; "b"; "c"; "d"; "e"; "f"; "f"]%string)
         = Main.Returned ins ∧
         length (Main.top_vendors ins) = 5%nat.
Proof.
  destruct (get_insights_top_vendors
              (sold_by <$> ["a"; "b"; "b"; "c"; "d"; "e"; "f"; "f"]%string))
    as (ins & agg & Hins & Hagg & Hlen & _).
  - repeat constructor.
  - exists ins. split; [done|]. rewrite Hlen.
    vm_compute in Hagg. injection Hagg as <-. done.
Defined.

(** *** The upload *)

(** X16. What the parser returns always passes the validation of
    [ReceiptCreate]: the upload never answers 422 for a text, whatever it
    is, and the stored receipt has the vendor, date, amount and category of
    the parser. *)
Theorem upload_receipt_valid (strptime : text -> string -> option datetime)
    (now : datetime) (filename extracted_text : text) :
  ∃ d, extract_date strptime now extracted_text = Some d ∧
       Main.receipt_data strptime now filename extracted_text
       = Main.Returned
           {| Models.filename := filename;
              Models.vendor := extract_vendor extracted_text;
              Models.transaction_date := d;
              Models.amount := extract_amount extracted_text;
              Models.category := extract_category extracted_text;
              Models.extracted_text := extracted_text |}.
Proof.
  unfold Main.receipt_data, Models.validate, parse_receipt_text.
  cbn [vendor transaction_date amount category].
  assert (∃ d, extract_date strptime now extracted_text = Some d) as [d Hd].
  { unfold extract_date. destruct (first_some _ _); by eexists. }
  exists d. split; [done|]. rewrite Hd.
  rewrite bool_decide_eq_true_2.
  - by rewrite bool_decide_eq_true_2 by apply extract_amount_pos.
  - pose proof (extract_vendor_nonempty extracted_text).
    destruct (extract_vendor extracted_text); [done|simpl; lia].
Qed.

(** ** What a match reads *)

Lemma elem_of_guard b k e : e ∈ guard b k -> b = true ∧ e = k.
Proof.
  unfold guard. destruct b; [|by intros ?%elem_of_nil].
  by intros ->%list_elem_of_singleton.
Qed.

Lemma reads_weaken (L1 L2 : text -> Prop) k e :
  (∀ s, L1 s -> L2 s) -> reads L1 k e -> reads L2 k e.
Proof. intros HL (pre & ? & ? & ?). exists pre. auto. Qed.

Lemma reads_nil (L : text -> Prop) k : L [] -> reads L k k.
Proof. intros HL. by exists []. Qed.

Lemma step_reads ok k e :
  e ∈ step ok k -> reads (fun s => ∃ d, s = [d] ∧ ok d = true) k e ∧ group1 e = group1 k.
Proof.
  unfold step. destruct (rest k) as [|c r] eqn:Hr; [by intros ?%elem_of_nil|].
  destruct (ok c) eqn:Hc; [|by intros ?%elem_of_nil].
  intros ->%list_elem_of_singleton. split; [|done].
  exists [c]. split_and!; [done..|]. by exists c.
Qed.

Lemma reads_seq (L1 L2 : text -> Prop) k k' e :
  reads L1 k k' -> reads L2 k' e ->
  reads (fun s => ∃ s1 s2, s = s1 ++ s2 ∧ L1 s1 ∧ L2 s2) k e.
Proof.
  intros (p1 & H1 & H1' & HL1) (p2 & H2 & H2' & HL2). exists (p2 ++ p1). split_and!.
  - by rewrite H2, H1, (assoc_L (++)).
  - by rewrite H1', H2', rev_app_distr, (assoc_L (++)).
  - rewrite rev_app_distr. by exists (rev p1), (rev p2).
Qed.

Lemma rep_reads (L : text -> Prop) (f : cursor -> list cursor) :
  (∀ k e, e ∈ f k -> reads L k e) ->
  ∀ hi lo k e, e ∈ rep f lo hi k ->
    reads (fun s => ∃ ss, s = concat ss ∧ Forall L ss ∧
                          (lo ≤ length ss ≤ hi)%nat) k e.
Proof.
  intros Hf.
  assert (∀ lo hi k e, e ∈ guard (bool_decide (lo = 0%nat)) k ->
            reads (fun s => ∃ ss, s = concat ss ∧ Forall L ss ∧
                                  (lo ≤ length ss ≤ hi)%nat) k e) as Hguard.
  { intros lo hi k e [Hlo%bool_decide_eq_true ->]%elem_of_guard.
    apply reads_nil. exists []. split_and!; [done|constructor|simpl; lia..]. }
  induction hi as [|hi IH]; intros lo k e; cbn [rep]; [apply Hguard|].
  rewrite elem_of_app, list_elem_of_bind. intros [(k' & He & Hk)|He]; [|by apply Hguard].
  eapply reads_weaken; [|exact (reads_seq _ _ _ _ _ (Hf _ _ Hk) (IH _ _ _ He))].
  intros s (s1 & s2 & -> & H1 & ss & -> & Hss & Hlen).
  exists (s1 :: ss). split_and!; [done|by constructor|simpl; lia..].
Qed.

Lemma run_reads ic r : ∀ k e, e ∈ run ic r k -> reads (lang ic r) k e.
Proof.
  induction r as [c|p| | | |a IHa b IHb|a IHa b IHb|a IHa lo hi|a IHa];
    intros k e; cbn [run lang].
  - by intros [? _]%step_reads.
  - by intros [? _]%step_reads.
  - intros [_ ->]%elem_of_guard. by apply reads_nil.
  - intros [_ ->]%elem_of_guard. by apply reads_nil.
  - intros [_ ->]%elem_of_guard. by apply reads_nil.
  - rewrite list_elem_of_bind. intros (k' & He & Hk).
    exact (reads_seq _ _ _ _ _ (IHa _ _ Hk) (IHb _ _ He)).
  - rewrite elem_of_app. intros [H|H]; (eapply reads_weaken; [|eauto]); cbn; auto.
  - intros H. eapply reads_weaken; [|exact (rep_reads _ _ IHa _ _ _ _ H)].
    intros s (ss & -> & Hss & Hlo & Hhi). exists ss. split_and!; [done..|].
    destruct hi; simpl in *; [lia|done].
  - rewrite list_elem_of_fmap. intros (k' & -> & Hk).
    destruct (IHa _ _ Hk) as (pre & ? & ? & ?). by exists pre.
Qed.

Lemma reads_between L k e : reads L k e -> L (between k e).
Proof.
  intros (pre & Hs & _ & HL). unfold between. rewrite Hs, length_app.
  replace (length pre + length (seen k) - length (seen k))%nat with (length pre) by lia.
  by rewrite take_app_length.
Qed.

(** *** What group 1 holds *)

Lemma captured_refl ic r k : captured ic r k k.
Proof. by left. Qed.

Lemma captured_trans ic r1 r2 r k k' e :
  (∀ a, a ∈ groups r1 -> a ∈ groups r) -> (∀ a, a ∈ groups r2 -> a ∈ groups r) ->
  captured ic r1 k k' -> captured ic r2 k' e -> captured ic r k e.
Proof.
  intros H1 H2 [Hk|(a & g & Ha & Hg & HL)] [He|(a' & g' & Ha' & Hg' & HL')].
  - left. congruence.
  - right. exists a', g'. auto.
  - right. exists a, g. split_and!; [auto|congruence|done].
  - right. exists a', g'. auto.
Qed.

Lemma rep_captured ic a (f : cursor -> list cursor) :
  (∀ k e, e ∈ f k -> captured ic a k e) ->
  ∀ hi lo k e, e ∈ rep f lo hi k -> captured ic a k e.
Proof.
  intros Hf. induction hi as [|hi IH]; intros lo k e; cbn [rep].
  - intros [_ ->]%elem_of_guard. apply captured_refl.
  - rewrite elem_of_app, list_elem_of_bind. intros [(k' & He & Hk)|He].
    + eapply (captured_trans ic a a a); eauto.
    + apply elem_of_guard in He as [_ ->]. apply captured_refl.
Qed.

Lemma run_captured ic r : ∀ k e, e ∈ run ic r k -> captured ic r k e.
Proof.
  induction r as [c|p| | | |a IHa b IHb|a IHa b IHb|a IHa lo hi|a IHa];
    intros k e; cbn [run].
  - intros [_ ?]%step_reads. by left.
  - intros [_ ?]%step_reads. by left.
  - intros [_ ->]%elem_of_guard. apply captured_refl.
  - intros [_ ->]%elem_of_guard. apply captured_refl.
  - intros [_ ->]%elem_of_guard. apply captured_refl.
  - rewrite list_elem_of_bind. intros (k' & He & Hk).
    eapply (captured_trans ic a b); eauto; intros x Hx; cbn [groups];
      rewrite elem_of_app; auto.
  - rewrite elem_of_app.
    intros [H|H]; [apply IHa in H|apply IHb in H];
      (destruct H as [?|(x & g & Hx & ? & ?)]; [by left|right; exists x, g]);
      cbn [groups]; rewrite elem_of_app; auto.
  - intros H. apply (rep_captured ic a _ IHa) in H.
    destruct H as [?|(x & g & Hx & ? & ?)]; [by left|right; by exists x, g].
  - rewrite list_elem_of_fmap. intros (k' & -> & Hk). right.
    exists a, (between k k'). split_and!; [cbn [groups]; left|done|].
    apply reads_between. by apply run_reads.
Qed.

(** *** [search] and [findall] *)

Lemma search_from_cursor ic r sn rs k e :
  search_from ic r sn rs = Some (k, e) ->
  rev (seen k) ++ rest k = rev sn ++ rs ∧ group1 k = None.
Proof.
  revert sn. induction rs as [|c rs IH]; intros sn; cbn [search_from].
  - destruct (head _); [|done]. by intros [= <- <-].
  - destruct (head _); [by intros [= <- <-]|].
    intros H. apply IH in H as [-> ?]. split; [|done].
    cbn [rev]. by rewrite <- (assoc_L (++)).
Qed.

Lemma reads_part_of L k e :
  reads L k e -> part_of (between k e) (rev (seen k) ++ rest k).
Proof.
  intros Hr. pose proof (reads_between L k e Hr) as _.
  destruct Hr as (pre & Hs & Hrest & _). exists (rev (seen k)), (rest e).
  unfold between. rewrite Hs, length_app.
  replace (length pre + length (seen k) - length (seen k))%nat with (length pre) by lia.
  by rewrite take_app_length, Hrest.
Qed.

(** What [search] finds is a text of the pattern that occurs in the text
    searched. *)
Lemma search_lang ic r t m :
  search ic r t = Some m -> lang ic r m ∧ part_of m t.
Proof.
  unfold search. destruct (search_from ic r [] t) as [[k e]|] eqn:Hsf; [|done].
  intros [= <-]. cbn [fst snd].
  pose proof (search_from_sound _ _ _ _ _ _ Hsf) as He%run_reads.
  apply search_from_cursor in Hsf as [Hk _]. split.
  - by apply reads_between in He.
  - apply reads_part_of in He. by rewrite Hk in He.
Qed.

(** Each item [findall] returns comes from a match somewhere in the text. *)
Lemma findall_from_match ic r skip sn rs raw :
  raw ∈ findall_from ic r skip sn rs ->
  ∃ k e, rev (seen k) ++ rest k = rev sn ++ rs ∧ group1 k = None ∧
         e ∈ run ic r k ∧ raw = default [] (group1 e).
Proof.
  revert skip sn. induction rs as [|c rs IH]; intros skip sn; cbn [findall_from].
  - destruct skip; [|by intros ?%elem_of_nil].
    destruct (head _) as [e|] eqn:He; [|by intros ?%elem_of_nil].
    rewrite elem_of_cons, elem_of_nil. intros [-> |[]].
    exists (Cursor sn [] None), e. split_and!; [done..| |done].
    by apply head_Some_elem_of.
  - assert (∀ n, raw ∈ findall_from ic r n (c :: sn) rs ->
              ∃ k e, rev (seen k) ++ rest k = rev sn ++ c :: rs ∧ group1 k = None ∧
                     e ∈ run ic r k ∧ raw = default [] (group1 e)) as Hnext.
    { intros n (k & e & Hk & ?)%IH. exists k, e. split; [|done].
      rewrite Hk. cbn [rev]. by rewrite <- (assoc_L (++)). }
    destruct skip; [|apply Hnext].
    destruct (head _) as [e|] eqn:He; [|apply Hnext].
    rewrite elem_of_cons. intros [-> |H]; [|by eapply Hnext].
    exists (Cursor sn (c :: rs) None), e. split_and!; [done..| |done].
    by apply head_Some_elem_of.
Qed.

Lemma findall_lang ic r t raw :
  raw ∈ findall ic r t ->
  (raw = [] ∨ ∃ a, a ∈ groups r ∧ lang ic a raw) ∧
  ∃ m, lang ic r m ∧ part_of m t.
Proof.
  intros (k & e & Hk & Hg & He & ->)%findall_from_match. split.
  - destruct (run_captured _ _ _ _ He) as [Hc|(a & g & Ha & Hc & HL)].
    + left. by rewrite Hc, Hg.
    + right. exists a. rewrite Hc. done.
  - exists (between k e). pose proof (run_reads _ _ _ _ He) as Hr. split.
    + by apply reads_between in Hr.
    + apply reads_part_of in Hr. by rewrite Hk in Hr.
Qed.

(** *** Characters a match must hold *)

Lemma needs_lang P ic r s : needs P ic r -> lang ic r s -> Exists P s.
Proof.
  revert s. induction r as [c|p| | | |a IHa b IHb|a IHa b IHb|a IHa lo hi|a IHa];
    intros s; cbn [needs lang]; try done.
  - intros H (d & -> & Hd). apply Exists_cons_hd. auto.
  - intros H (d & -> & Hd). apply Exists_cons_hd. auto.
  - intros [H|H] (s1 & s2 & -> & H1 & H2); apply Exists_app; [left|right]; auto.
  - intros [Ha Hb] [H|H]; auto.
  - intros [Hlo Ha] (ss & -> & Hss & Hlen & _).
    destruct Hss as [|s1 ss H1 _]; [simpl in Hlen; lia|].
    cbn [concat]. apply Exists_app. left. auto.
  - auto.
Qed.

Lemma part_of_Forall (P : char -> Prop) s t : part_of s t -> Forall P t -> Forall P s.
Proof.
  intros (a & b & ->). rewrite !Forall_app. tauto.
Qed.

(** ** The numerals the amount patterns capture *)

Lemma lang_digits ic lo hi s :
  lang ic (times digit lo hi) s ->
  forallb is_digit s = true ∧ (lo ≤ length s ≤ hi)%nat.
Proof.
  cbn [times digit lang from_option]. intros (ss & -> & Hss & Hlo & Hhi).
  revert lo hi Hlo Hhi. induction Hss as [|s ss (d & -> & Hd) _ IH]; intros lo hi Hlo Hhi.
  - simpl in *. split; [done|lia].
  - cbn [concat app forallb length] in *. rewrite Hd.
    destruct (IH (pred lo) (pred hi)) as [-> ?]; [lia..|]. split; [done|lia].
Qed.

Lemma lang_separator ic s : lang ic (one_of ".,") s -> s = [dot] ∨ s = [comma].
Proof.
  cbn [one_of lang]. intros (d & -> & Hd%bool_decide_eq_true).
  change (text_of ".,") with [dot; comma] in Hd.
  rewrite !elem_of_cons, elem_of_nil in Hd. destruct Hd as [-> |[-> |[]]]; auto.
Qed.

Lemma count_separator s :
  s = [dot] ∨ s = [comma] -> (count_char comma s + count_char dot s = 1)%nat.
Proof. by intros [-> | ->]. Qed.

Lemma lang_thousands ic s :
  lang ic (star (Seq (one_of ".,") (times digit 3 3))) s ->
  s = [] ∨ (1 ≤ count_char comma s + count_char dot s)%nat.
Proof.
  cbn [star lang]. intros (ss & -> & Hss & _).
  destruct Hss as [|s ss (c & ds & -> & Hc%lang_separator%count_separator & _) _]; [by left|].
  right. cbn [concat]. rewrite !count_char_app. lia.
Qed.

Lemma number_groups p : p ∈ amount_patterns ->
  groups p = [seqs [times digit 1 3; star (Seq (one_of ".,") (times digit 3 3));
                    Seq (one_of ".,") (times digit 1 2)]].
Proof.
  unfold amount_patterns. rewrite !elem_of_cons, elem_of_nil.
  intros [-> |[-> |[-> |[-> |[]]]]]; reflexivity.
Qed.

(** A captured numeral: digits, groups of a separator and three digits, a
    separator and one or two digits. *)
Lemma lang_number ic raw :
  lang ic (seqs [times digit 1 3; star (Seq (one_of ".,") (times digit 3 3));
                 Seq (one_of ".,") (times digit 1 2)]) raw ->
  ∃ ip mid sep fp,
    raw = ip ++ mid ++ sep :: fp ∧
    forallb is_digit ip = true ∧ (1 ≤ length ip ≤ 3)%nat ∧
    (mid = [] ∨ 1 ≤ count_char comma mid + count_char dot mid)%nat ∧
    (sep = dot ∨ sep = comma) ∧
    forallb is_digit fp = true ∧ (1 ≤ length fp ≤ 2)%nat.
Proof.
  cbn [seqs foldl]. cbn [lang].
  fold (lang ic (times digit 1 3)) (lang ic (times digit 1 2))
       (lang ic (star (Seq (one_of ".,") (times digit 3 3)))) (lang ic (one_of ".,")).
  intros (s1 & s2 & -> & (ip & mid & -> & Hip%lang_digits & Hmid%lang_thousands)
          & (c & fp & -> & Hc%lang_separator & Hfp%lang_digits)).
  destruct Hip as [Hip ?], Hfp as [Hfp ?].
  assert (∃ sep, c = [sep] ∧ (sep = dot ∨ sep = comma)) as (sep & -> & Hsep).
  { destruct Hc as [-> | ->]; eexists; eauto. }
  exists ip, mid, sep, fp. split_and!; try done; try lia.
  by rewrite <- (assoc_L (++)).
Qed.

Lemma normalize_digits s : forallb is_digit s = true -> normalize s = s.
Proof.
  unfold normalize, replace_char. induction s as [|c s IH]; [done|].
  cbn [forallb]. intros [Hc Hs]%andb_true_iff. rewrite fmap_cons, IH by done.
  destruct (N.eqb_spec c comma) as [-> |]; [done|done].
Qed.

Lemma span_digits_app ds c r :
  forallb is_digit ds = true -> is_digit c = false ->
  span_digits (ds ++ c :: r) = (ds, c :: r).
Proof.
  intros Hds Hc. induction ds as [|d ds IH]; cbn [app span_digits].
  - by rewrite Hc.
  - cbn [forallb] in Hds. apply andb_true_iff in Hds as [-> Hds]. by rewrite IH.
Qed.

Lemma digits_value_bound s :
  forallb is_digit s = true -> (0 ≤ digits_value s < 10 ^ Z.of_nat (length s))%Z.
Proof.
  unfold digits_value.
  enough (∀ acc, (0 ≤ acc)%Z -> forallb is_digit s = true ->
            (0 ≤ foldl (fun acc c => acc * 10 + Z.of_N (c - 48)) acc s
             < (acc + 1) * 10 ^ Z.of_nat (length s))%Z) as H.
  { intros Hs. specialize (H 0%Z ltac:(lia) Hs). lia. }
  induction s as [|c s IH]; intros acc Hacc; cbn [foldl forallb length].
  - intros _. simpl. lia.
  - intros [Hc Hs]%andb_true_iff.
    unfold is_digit in Hc. apply andb_true_iff in Hc as [H1%N.leb_le H2%N.leb_le].
    specialize (IH (acc * 10 + Z.of_N (c - 48))%Z ltac:(lia) Hs).
    rewrite Nat2Z.inj_succ, Z.pow_succ_r by lia.
    assert (0 < 10 ^ Z.of_nat (length s))%Z by (apply Z.pow_pos_nonneg; lia).
    nia.
Qed.

Lemma pow10_spec n : Z.pos (pow10 n) = (10 ^ Z.of_nat n)%Z.
Proof.
  unfold pow10. induction n as [|n IH]; [done|].
  rewrite Nat2Z.inj_succ, Z.pow_succ_r by lia. rewrite <- IH.
  change (Nat.iter (S n) (Pos.mul 10) 1%positive)
    with (10 * Nat.iter n (Pos.mul 10) 1)%positive.
  by rewrite Pos2Z.inj_mul.
Qed.

Lemma Q2Qc_pos (q : Q) : (0 < Q2Qc q)%Qc -> (0 < Qnum q)%Z.
Proof.
  unfold Qclt. cbn [this Q2Qc]. rewrite !Qred_correct.
  unfold Qlt. simpl. lia.
Qed.

(** What a captured numeral is worth when it parses. *)
Lemma number_value ic raw a :
  lang ic (seqs [times digit 1 3; star (Seq (one_of ".,") (times digit 3 3));
                 Seq (one_of ".,") (times digit 1 2)]) raw ->
  float_of (normalize raw) = Some a -> (0 < a)%Qc ->
  ∃ n : Z, (1 ≤ n ≤ 99999)%Z ∧ a = Q2Qc (n # 100).
Proof.
  intros (ip & mid & sep & fp & -> & Hip & Hlip & Hmid & Hsep & Hfp & Hlfp)%lang_number
         Hfloat Hpos.
  destruct Hmid as [-> |Hmid]; last first.
  { rewrite float_of_separators in Hfloat; [done|].
    rewrite !count_char_app, !count_char_cons.
    destruct Hsep as [-> | ->]; repeat case_decide; try done; lia. }
  cbn [app] in Hfloat.
  assert (normalize (ip ++ sep :: fp) = ip ++ dot :: fp) as Hn.
  { unfold normalize, replace_char. rewrite fmap_app, fmap_cons.
    fold (replace_char comma dot ip) (replace_char comma dot fp).
    fold (normalize ip) (normalize fp). rewrite !normalize_digits by done.
    by destruct Hsep as [-> | ->]. }
  rewrite Hn in Hfloat. unfold float_of in Hfloat.
  rewrite span_digits_app in Hfloat by done.
  rewrite N.eqb_refl, Hfp in Hfloat. cbn [andb] in Hfloat.
  rewrite (bool_decide_eq_false_2 (ip = [])) in Hfloat by (destruct ip; [simpl in *; lia|done]).
  cbn [andb negb] in Hfloat. injection Hfloat as <-.
  assert (forallb is_digit (ip ++ fp) = true) as Hall.
  { rewrite forallb_app. by rewrite Hip, Hfp. }
  pose proof (digits_value_bound _ Hall) as Hb. rewrite length_app in Hb.
  apply Q2Qc_pos in Hpos. cbn [Qnum] in Hpos.
  set (m := digits_value (ip ++ fp)) in *.
  assert (10 ^ Z.of_nat (length ip + length fp)
          ≤ 1000 * 10 ^ Z.of_nat (length fp))%Z as Hle.
  { rewrite Nat2Z.inj_add, Z.pow_add_r by lia.
    apply Z.mul_le_mono_nonneg_r; [apply Z.pow_nonneg; lia|].
    change 1000%Z with (10 ^ 3)%Z. apply Z.pow_le_mono_r; lia. }
  destruct fp as [|f1 [|f2 [|f3 fp]]]; cbn [length] in *; try lia.
  - exists (10 * m)%Z. split; [simpl in *; lia|].
    apply Q2Qc_eq_iff. unfold Qeq. simpl. lia.
  - exists m. split; [simpl in *; lia|]. done.
Qed.

(** X17. The amount is a whole number of hundredths between 0.01 and 999.99:
    a captured numeral has at most three digits before its separator and at
    most two behind it, and one with a thousands group does not parse; an
    amount of 1000 or more is never extracted. *)
Theorem extract_amount_hundredths (t : text) :
  ∃ n : Z, (1 ≤ n ≤ 99999)%Z ∧ extract_amount t = Q2Qc (n # 100).
Proof.
  unfold extract_amount.
  destruct (first_some _ _) as [a|] eqn:Ha; [|by exists 1%Z].
  apply first_some_Some in Ha as (p & Hp & Ha).
  pose proof (try_amount_pos _ _ _ Ha) as Hpos.
  apply try_amount_yields in Ha as (raw & Hlast & Hfloat & _).
  apply last_Some_elem_of, findall_lang in Hlast as [[-> |(g & Hg & Hraw)] _].
  { done. }
  rewrite (number_groups p Hp) in Hg. apply list_elem_of_singleton in Hg as ->.
  by eapply number_value.
Qed.

(** ** A text without digits *)

Lemma needs_seqs P ic r rs :
  Exists (needs P ic) (r :: rs) -> needs P ic (seqs (r :: rs)).
Proof.
  cbn [seqs]. revert r. induction rs as [|r' rs IH]; intros r Hex; cbn [foldl].
  - apply Exists_cons in Hex as [?|Hex]; [done|]. by apply Exists_nil in Hex.
  - apply IH. apply Exists_cons in Hex as [?|Hex].
    + apply Exists_cons_hd. cbn [needs]. by left.
    + apply Exists_cons in Hex as [?|Hex].
      * apply Exists_cons_hd. cbn [needs]. by right.
      * by apply Exists_cons_tl.
Qed.

Lemma needs_digits ic lo hi :
  (1 ≤ lo)%nat -> needs (fun c => is_digit c = true) ic (times digit lo hi).
Proof. intros Hlo. cbn [times digit needs]. auto. Qed.

Lemma needs_number ic : needs (fun c => is_digit c = true) ic number.
Proof.
  unfold number. cbn [needs]. apply needs_seqs, Exists_cons_hd, needs_digits. lia.
Qed.

Ltac needs_digit :=
  apply needs_seqs;
  repeat first [ apply Exists_cons_hd; solve [apply needs_digits; lia | apply needs_number]
               | apply Exists_cons_tl ].

Lemma date_patterns_need_digit :
  Forall (needs (fun c => is_digit c = true) false) date_patterns.
Proof.
  unfold date_patterns.
  repeat first [apply List.Forall_nil | apply List.Forall_cons]; needs_digit.
Qed.

Lemma amount_patterns_need_digit :
  Forall (needs (fun c => is_digit c = true) true) amount_patterns.
Proof.
  unfold amount_patterns, keyword_anchored, symbol_prefixed, code_suffixed,
    trailing_decimal.
  repeat first [apply List.Forall_nil | apply List.Forall_cons]; needs_digit.
Qed.

Lemma no_digit_no_match ic p t m :
  needs (fun c => is_digit c = true) ic p ->
  Forall (fun c => is_digit c = false) t ->
  lang ic p m -> part_of m t -> False.
Proof.
  intros Hp Ht Hm Hpart. apply (needs_lang _ _ _ _ Hp) in Hm.
  apply (part_of_Forall _ _ _ Hpart) in Ht.
  apply Exists_exists in Hm as (c & Hc & Hd). rewrite Forall_forall in Ht.
  specialize (Ht c Hc). congruence.
Qed.

(** X18. On an ASCII text that holds no digit no date pattern and no amount
    pattern matches: the amount is 0.01 and the date is the current time,
    whatever [strptime] does. *)
Theorem digitless_text (strptime : text -> string -> option datetime) (now : datetime)
    (t : text) :
  Forall (fun c => c < 128 ∧ is_digit c = false) t ->
  extract_amount t = sentinel_amount ∧ extract_date strptime now t = Some now.
Proof.
  intros Ht%(Forall_impl _ (fun c => is_digit c = false)); [|tauto]. split.
  - unfold extract_amount.
    assert (first_some (fun p => try_amount p t) amount_patterns = None) as ->; [|done].
    apply first_some_None, Forall_forall. intros p Hp. unfold try_amount.
    destruct (last (findall true p t)) as [raw|] eqn:Hlast; [|done]. exfalso.
    apply last_Some_elem_of, findall_lang in Hlast as [_ (m & Hm & Hpart)].
    pose proof amount_patterns_need_digit as Hneed. rewrite Forall_forall in Hneed.
    by eapply no_digit_no_match; [apply Hneed|..].
  - unfold extract_date.
    assert (first_some (fun p => search false p t ≫= try_formats strptime) date_patterns
            = None) as ->; [|done].
    apply first_some_None, Forall_forall. intros p Hp.
    destruct (search false p t) as [m|] eqn:Hm; [|done]. exfalso.
    apply search_lang in Hm as [Hm Hpart].
    pose proof date_patterns_need_digit as Hneed. rewrite Forall_forall in Hneed.
    by eapply no_digit_no_match; [apply Hneed|..].
Qed.

Lemma digitless_text_witness :
  extract_amount plain_text = sentinel_amount ∧
  extract_date no_strptime noon plain_text = Some noon.
Proof.
  apply (digitless_text no_strptime noon plain_text).
  apply (bool_decide_unpack _). vm_compute. exact I.
Defined.

